(** * Nordic Data Intel: the reconciler, the apply-link resolver and the
      scan handlers, embedded from [App.tsx], [components/JobCard.tsx],
      [services/geminiService.ts] and [types.ts].

    ECMAScript strings are sequences of UTF-16 code units, and every string
    operation the program uses ([length], [includes], [trim],
    [encodeURIComponent]) is defined on code units, so [str] is a list of
    code units.  Numbers that come out of the JSON schema are modelled by
    their exact values: [match_score], an INTEGER of the schema, is an
    integer, and [job_age_hours], a NUMBER, is a rational, a double being
    the rational it stands for.  The one division of the program is
    rounded to double precision as the engine rounds it.  [NaN] is
    modelled where the program can produce it, which is when a publish
    date does not parse.

    A handler runs from its trigger to its end without another handler
    in between: the busy flag disables both triggers while a call is in
    flight, and every state update of a handler is a function of the
    previous state. *)

From Stdlib Require Import ZArith NArith QArith Qround Qpower List Bool Lia Lqa.
From Stdlib Require Import String Ascii DecimalString Permutation Sorted.
Import ListNotations.

Local Open Scope Z_scope.

(* ================================================================== *)
(** * ECMAScript values and built-ins                                  *)
(* ================================================================== *)

Module JS.

(** A string: its UTF-16 code units. *)
Definition str := list N.

(** An ASCII literal as a [str]. *)
Definition lit (s : string) : str :=
  List.map N_of_ascii (list_ascii_of_string s).

(** [s || d] on strings: the empty string is falsy. *)
Definition or_else (s d : str) : str :=
  match s with [] => d | _ => s end.

(** [!s] on strings. *)
Definition falsy (s : str) : bool :=
  match s with [] => true | _ => false end.

(** A number that is either an integer value or [NaN]. *)
Inductive number := NaN | Num (z : Z).

(** [a !== b] on numbers: [NaN] differs from everything, itself included. *)
Definition strict_neq (a b : number) : bool :=
  match a, b with
  | Num x, Num y => negb (x =? y)
  | _, _ => true
  end.

(** [a - b] on numbers. *)
Definition sub (a b : number) : number :=
  match a, b with
  | Num x, Num y => Num (x - y)
  | _, _ => NaN
  end.

(** What a [throw] carries: an [Error] instance (with its [name] and
    [message]) or some other value. *)
Inductive exn :=
| ErrorObj (name message : str)
| OtherValue.

(** The outcome of an expression that can throw. *)
Inductive completion (A : Type) :=
| Normal (a : A)
| Throw (e : exn).
Arguments Normal {A} a.
Arguments Throw {A} e.

Definition bind {A B} (c : completion A) (k : A -> completion B)
  : completion B :=
  match c with
  | Normal a => k a
  | Throw e => Throw e
  end.

(** ** [String.prototype.startsWith] and [includes] *)

Fixpoint startsWith (s prefix : str) : bool :=
  match prefix, s with
  | [], _ => true
  | _ :: _, [] => false
  | p :: prefix', c :: s' => (c =? p)%N && startsWith s' prefix'
  end.

Fixpoint includes (s search : str) : bool :=
  startsWith s search ||
  match s with
  | [] => false
  | _ :: s' => includes s' search
  end.

(** ** [String.prototype.trim] *)

(** WhiteSpace and LineTerminator code points of ECMAScript. *)
Definition isWhiteSpace (c : N) : bool :=
  ((9 <=? c) && (c <=? 13) || (c =? 32) || (c =? 160) || (c =? 5760)
   || (8192 <=? c) && (c <=? 8202) || (c =? 8232) || (c =? 8233)
   || (c =? 8239) || (c =? 8287) || (c =? 12288) || (c =? 65279))%N.

Fixpoint trimStart (s : str) : str :=
  match s with
  | [] => []
  | c :: s' => if isWhiteSpace c then trimStart s' else s
  end.

Definition trimEnd (s : str) : str := rev (trimStart (rev s)).

Definition trim (s : str) : str := trimEnd (trimStart s).

(** ** [encodeURIComponent] *)

(** The characters [encodeURIComponent] leaves alone:
    [A-Z a-z 0-9 - _ . ! ~ * ' ( )]. *)
Definition uriUnreserved (c : N) : bool :=
  ((65 <=? c) && (c <=? 90) || (97 <=? c) && (c <=? 122)
   || (48 <=? c) && (c <=? 57)
   || (c =? 45) || (c =? 95) || (c =? 46) || (c =? 33) || (c =? 126)
   || (c =? 42) || (c =? 39) || (c =? 40) || (c =? 41))%N.

Definition isLeadSurrogate (c : N) : bool := ((55296 <=? c) && (c <=? 56319))%N.
Definition isTrailSurrogate (c : N) : bool := ((56320 <=? c) && (c <=? 57343))%N.

(** The UTF-8 octets of a code point. *)
Definition utf8 (cp : N) : list N :=
  (if cp <? 128 then [cp]
   else if cp <? 2048 then
     [N.lor 192 (N.shiftr cp 6); N.lor 128 (N.land cp 63)]
   else if cp <? 65536 then
     [N.lor 224 (N.shiftr cp 12);
      N.lor 128 (N.land (N.shiftr cp 6) 63);
      N.lor 128 (N.land cp 63)]
   else
     [N.lor 240 (N.land (N.shiftr cp 18) 7);
      N.lor 128 (N.land (N.shiftr cp 12) 63);
      N.lor 128 (N.land (N.shiftr cp 6) 63);
      N.lor 128 (N.land cp 63)])%N.

(** An upper-case hexadecimal digit. *)
Definition hexDigit (d : N) : N :=
  (if d <? 10 then 48 + d else 55 + d)%N.

(** ["%XX"] for one octet. *)
Definition percent (octet : N) : str :=
  [37%N; hexDigit (N.land (N.shiftr octet 4) 15); hexDigit (N.land octet 15)].

Definition percentAll (octets : list N) : str := flat_map percent octets.

Definition URIError : exn := ErrorObj (lit "URIError") (lit "URI malformed").

(** The abstract operation Encode with the unreserved set of
    [encodeURIComponent]: an unreserved code unit is copied, any other code
    point is written as the percent-escapes of its UTF-8 octets, and an
    unpaired surrogate throws a URIError. *)
Fixpoint encodeURIComponent (s : str) : completion str :=
  match s with
  | [] => Normal []
  | c :: rest =>
      if uriUnreserved c then
        bind (encodeURIComponent rest) (fun r => Normal (c :: r))
      else if isTrailSurrogate c then Throw URIError
      else if isLeadSurrogate c then
        match rest with
        | c2 :: rest' =>
            if isTrailSurrogate c2 then
              let cp := ((c - 55296) * 1024 + (c2 - 56320) + 65536)%N in
              bind (encodeURIComponent rest')
                   (fun r => Normal (percentAll (utf8 cp) ++ r))
            else Throw URIError
        | [] => Throw URIError
        end
      else
        bind (encodeURIComponent rest)
             (fun r => Normal (percentAll (utf8 c) ++ r))
  end.

(** [String.prototype.isWellFormed]: no unpaired surrogate. *)
Fixpoint isWellFormed (s : str) : bool :=
  match s with
  | [] => true
  | c :: rest =>
      if isTrailSurrogate c then false
      else if isLeadSurrogate c then
        match rest with
        | c2 :: rest' => isTrailSurrogate c2 && isWellFormed rest'
        | [] => false
        end
      else isWellFormed rest
  end.

(** [String(n)] for an integer [n] with [|n| < 2^53], where every digit
    is printed.  (Beyond that the engine prints the shortest digits that
    identify the double, and from [1e21] on it uses exponent notation;
    the statements that depend on such a line keep below the bound.) *)
Definition ofZ (n : Z) : str := lit (NilZero.string_of_int (Z.to_int n)).

(** ** Double precision

    A finite double is a rational [m * 2^q] with [|m| < 2^53] and
    [-1074 <= q <= 971].  [toDouble x] is the double nearest to [x], a
    tie going to the even significand; it is meant for an [x] that does
    not overflow, as the quotient of a double by 24 never does. *)

Definition pow2 (q : Z) : Q := ((2 # 1) ^ q)%Q.

Definition isDouble (x : Q) : Prop :=
  exists m q, Z.abs m < 2 ^ 53 /\ -1074 <= q <= 971
              /\ (x == inject_Z m * pow2 q)%Q.

(** The [e] with [2^e <= x < 2^(e+1)], for [x > 0]. *)
Definition binade (x : Q) : Z :=
  let e := Z.log2 (Qnum x) - Z.log2 (Z.pos (Qden x)) in
  if Qle_bool (pow2 e) x then e else e - 1.

(** The nearest integer, a tie going to the even one. *)
Definition roundEven (x : Q) : Z :=
  let f := Qfloor x in
  match (x - inject_Z f ?= 1 # 2)%Q with
  | Lt => f
  | Gt => f + 1
  | Eq => if Z.even f then f else f + 1
  end.

Definition nearestDouble (x : Q) : Q :=
  let q := Z.max (binade x - 52) (-1074) in
  (inject_Z (roundEven (x / pow2 q)) * pow2 q)%Q.

Definition toDouble (x : Q) : Q :=
  match (x ?= 0)%Q with
  | Eq => 0%Q
  | Gt => nearestDouble x
  | Lt => (- nearestDouble (- x))%Q
  end.

(** [a / b] on numbers. *)
Definition divide (a b : Q) : Q := toDouble (a / b).

(** [Math.floor]. *)
Definition Math_floor (x : Q) : Z := Qfloor x.

(** ** [Array.prototype.sort]

    SortCompare turns a [NaN] from the comparator into [+0].  The sort is
    stable; for a comparator that is a consistent order this fixes the
    result, and it is the result of inserting every element, from the last
    to the first, in front of the first element it must not follow.  For
    a comparator that is not a consistent order the engine may arrange
    the elements in another way; only the rearrangement itself is then
    common to this definition and every engine.  The statements about
    the order are for comparators that are consistent; the one
    evaluation with an unparsable date is at a three-element input that
    V8 arranges in the same way. *)

Definition sortsAfter (v : number) : bool :=
  match v with
  | Num z => 0 <? z
  | NaN => false
  end.

Section Sort.
Context {A : Type} (comparefn : A -> A -> number).

Fixpoint insert (x : A) (l : list A) : list A :=
  match l with
  | [] => [x]
  | y :: l' =>
      if sortsAfter (comparefn x y) then y :: insert x l'
      else x :: y :: l'
  end.

Fixpoint sort (l : list A) : list A :=
  match l with
  | [] => []
  | x :: l' => insert x (sort l')
  end.
End Sort.

End JS.

Import JS.

(* ================================================================== *)
(** * [types.ts]                                                       *)
(* ================================================================== *)

Inductive EmploymentType := Permanent | Contract | EmploymentUnknown.

Inductive SeniorityLevel := Junior | Mid | Senior | SeniorityUnknown.

Record JobAlert := {
  job_title : str;
  company : str;
  primary_role : str;
  location : str;
  employment_type : EmploymentType;
  seniority : SeniorityLevel;
  publish_date_utc : str;
  job_age_hours : Q;
  match_score : Z;
  key_skills : list str;
  source : str;
  apply_url : str;
  alert_message_en : str;
  alert_message_sv : str
}.

Inductive Mode := SIMULATE | ANALYZE.

(* ================================================================== *)
(** * What the program takes from its host                             *)
(* ================================================================== *)

(** The program calls into the host for date parsing, Unicode case
    mapping, JSON parsing, the wall clock, the process environment and the
    inference service.  None of them is code of the repository, so they
    are the fields of a class and every result below holds for any
    instance.

    - [Date_getTime s] is [new Date(s).getTime()]: the instant in
      milliseconds, or [NaN] when [s] does not parse.
    - [JSON_parse text] is [JSON.parse(text) as JobAlert[]]; the cast is
      unchecked in the source, and the model covers the texts for which
      it is honoured.
    - [localeTime n] is [new Date().toLocaleTimeString('sv-SE', ...)] at
      the [n]-th reading of the clock.
    - [generateContent n mode inputText] is the [text] of the response to
      the [n]-th invocation ([None] for [undefined]), or what the call
      throws.  The prompt built from [mode] and [inputText] is text sent
      to the service and is not modelled further. *)
Class Host := {
  Date_getTime : str -> number;
  toLowerCase : str -> str;
  JSON_parse : str -> completion (list JobAlert);
  localeTime : nat -> str;
  API_KEY : option str;
  generateContent : nat -> Mode -> option str -> completion (option str)
}.

(** [!v] for a string that may be [undefined]. *)
Definition missing (v : option str) : bool :=
  match v with
  | None => true
  | Some s => falsy s
  end.

(* ================================================================== *)
(** * [components/JobCard.tsx]                                         *)
(* ================================================================== *)

Module JobCard.

(** A rendered [<span>]: its class and its children, which are literal
    text or the value of an expression in braces. *)
Inductive child := Text (s : str) | Value (q : Q).

Record span := { className : str; children : list child }.

Definition getScoreColor (score : Z) : str :=
  if 90 <=? score then lit "text-emerald-400 border-emerald-500/50 bg-emerald-950/20"
  else if 75 <=? score then lit "text-blue-400 border-blue-500/50 bg-blue-950/20"
  else lit "text-yellow-400 border-yellow-500/50 bg-yellow-950/20".

Definition getAgeBadge (hours : Q) : span :=
  if Qle_bool hours (24 # 1) then
    {| className := lit "px-2 py-0.5 bg-emerald-500/20 text-emerald-300 text-[10px] font-bold uppercase tracking-wider rounded border border-emerald-500/30";
       children := [Text (lit "New ("); Value hours; Text (lit "h)")] |}
  else if Qle_bool hours (48 # 1) then
    {| className := lit "px-2 py-0.5 bg-blue-500/20 text-blue-300 text-[10px] font-bold uppercase tracking-wider rounded border border-blue-500/30";
       children := [Text (lit "Recent ("); Value hours; Text (lit "h)")] |}
  else
    {| className := lit "px-2 py-0.5 bg-slate-700 text-slate-400 text-[10px] font-bold uppercase tracking-wider rounded border border-slate-600";
       children := [Value (inject_Z (Math_floor (divide hours (24 # 1))));
                    Text (lit "d old")] |}.

(** ['arbetsförmedlingen']: the [ö] is the code unit U+00F6. *)
Definition arbetsformedlingen : str :=
  lit "arbetsf" ++ [246%N] ++ lit "rmedlingen".

Section Resolver.
Context `{Host}.

(** [handleApply] of the card of [job]; the result is the URL handed to
    [window.open], or what the handler throws before reaching it. *)
Definition handleApply (job : JobAlert) : completion str :=
  let url := apply_url job in
  if falsy url || (List.length url <? 5)%nat || includes url (lit "example.com")
  then
    bind (encodeURIComponent (job_title job ++ lit " " ++ company job))
      (fun q =>
    bind (encodeURIComponent (or_else (location job) (lit "Sweden")))
      (fun loc =>
    let source := toLowerCase (or_else (source job) (lit "")) in
    if includes source (lit "linkedin") then
      Normal (lit "https://www.linkedin.com/jobs/search/?keywords=" ++ q
              ++ lit "&location=" ++ loc)
    else if includes source arbetsformedlingen
            || includes source (lit "platsbanken") then
      Normal (lit "https://platsbanken.arbetsformedlingen.se/platsannonser/sok?q="
              ++ q)
    else if includes source (lit "indeed") then
      Normal (lit "https://se.indeed.com/jobs?q=" ++ q ++ lit "&l=" ++ loc)
    else
      Normal (lit "https://www.google.com/search?q=" ++ q
              ++ lit "+job+" ++ loc)))
  else Normal url.
End Resolver.

End JobCard.

(* ================================================================== *)
(** * [services/geminiService.ts]                                      *)
(* ================================================================== *)

Module GeminiService.

Section Service.
Context `{Host}.

(** [scanJobs(mode, inputText)] as the [n]-th invocation of the
    service. *)
Definition scanJobs (n : nat) (mode : Mode) (inputText : option str)
  : completion (list JobAlert) :=
  if missing API_KEY then
    Throw (ErrorObj (lit "Error") (lit "API Key is missing"))
  else
    match generateContent n mode inputText with
    | Normal text =>
        match text with
        | Some t =>
            if falsy t then Normal []
            else
              match JSON_parse t with
              | Normal data => Normal data
              | Throw error => Throw error
              end
        | None => Normal []
        end
    | Throw error => Throw error
    end.
End Service.

End GeminiService.

(* ================================================================== *)
(** * [App.tsx]                                                        *)
(* ================================================================== *)

Module App.

Import GeminiService.

Inductive Tab := feed | analyze.

(** The component state kept by [useState]. *)
Record State := {
  jobs : list JobAlert;
  isScanning : bool;
  activeTab : Tab;
  analyzeText : str;
  logs : list str
}.

(** The state together with what the handlers do to the outside: how often
    the clock was read, the invocations of [scanJobs] so far, and the
    messages shown with [alert]. *)
Record World := {
  ui : State;
  clockReads : nat;
  invocations : list (Mode * option str);
  alerts : list str
}.

(** Handlers run in a state monad over [World]. *)
Definition M (A : Type) : Type := World -> A * World.

Definition ret {A} (a : A) : M A := fun w => (a, w).

Definition seq {A B} (m : M A) (k : A -> M B) : M B :=
  fun w => let (a, w') := m w in k a w'.

Notation "x <- m ;; k" := (seq m (fun x => k))
  (at level 61, m at next level, right associativity).
Notation "m ;; k" := (seq m (fun _ => k))
  (at level 61, right associativity).

Definition run (m : M unit) (w : World) : World := snd (m w).

Definition modify (f : State -> State) : M unit :=
  fun w => (tt, {| ui := f (ui w); clockReads := clockReads w;
                   invocations := invocations w; alerts := alerts w |}).

Definition setJobs (f : list JobAlert -> list JobAlert) : M unit :=
  modify (fun s => {| jobs := f (jobs s); isScanning := isScanning s;
                      activeTab := activeTab s; analyzeText := analyzeText s;
                      logs := logs s |}).

Definition setIsScanning (b : bool) : M unit :=
  modify (fun s => {| jobs := jobs s; isScanning := b;
                      activeTab := activeTab s; analyzeText := analyzeText s;
                      logs := logs s |}).

Definition setActiveTab (t : Tab) : M unit :=
  modify (fun s => {| jobs := jobs s; isScanning := isScanning s;
                      activeTab := t; analyzeText := analyzeText s;
                      logs := logs s |}).

Definition setAnalyzeText (t : str) : M unit :=
  modify (fun s => {| jobs := jobs s; isScanning := isScanning s;
                      activeTab := activeTab s; analyzeText := t;
                      logs := logs s |}).

Definition setLogs (f : list str -> list str) : M unit :=
  modify (fun s => {| jobs := jobs s; isScanning := isScanning s;
                      activeTab := activeTab s; analyzeText := analyzeText s;
                      logs := f (logs s) |}).

Definition getAnalyzeText : M str := fun w => (analyzeText (ui w), w).

Definition alert (message : str) : M unit :=
  fun w => (tt, {| ui := ui w; clockReads := clockReads w;
                   invocations := invocations w;
                   alerts := alerts w ++ [message] |}).

(** [error instanceof Error ? error.message : 'Unknown error'] *)
Definition errorMessage (error : exn) : str :=
  match error with
  | ErrorObj _ message => message
  | OtherValue => lit "Unknown error"
  end.

Section Component.
Context `{Host}.

(** [new Date().toLocaleTimeString('sv-SE', { hour12: false })] *)
Definition currentTime : M str :=
  fun w => (localeTime (clockReads w),
            {| ui := ui w; clockReads := S (clockReads w);
               invocations := invocations w; alerts := alerts w |}).

(** [await scanJobs(mode, inputText)]: the outcome of the call, which is
    recorded among the invocations. *)
Definition awaitScanJobs (mode : Mode) (inputText : option str)
  : M (completion (list JobAlert)) :=
  fun w => (scanJobs (List.length (invocations w)) mode inputText,
            {| ui := ui w; clockReads := clockReads w;
               invocations := invocations w ++ [(mode, inputText)];
               alerts := alerts w |}).

Definition addLog (message : str) : M unit :=
  timestamp <- currentTime ;;
  setLogs (fun prev =>
             (lit "[" ++ timestamp ++ lit "] " ++ message) :: firstn 49 prev).

Definition compareJobs (a b : JobAlert) : number :=
  let dateA := Date_getTime (publish_date_utc a) in
  let dateB := Date_getTime (publish_date_utc b) in
  if strict_neq dateA dateB then sub dateB dateA
  else Num (match_score b - match_score a).

Definition mergeAndSortJobs (newJobs currentJobs : list JobAlert)
  : list JobAlert :=
  let allJobs := newJobs ++ currentJobs in
  sort compareJobs allJobs.

Definition handleSimulateScan : M unit :=
  if missing API_KEY then
    alert (lit "Please set your API_KEY in the environment variables.")
  else
    setIsScanning true ;;
    addLog (lit "Initiating market scan for current month...") ;;
    addLog (lit "Targeting sources: Platsbanken, LinkedIn, Indeed...") ;;
    outcome <- awaitScanJobs SIMULATE None ;;
    match outcome with
    | Normal results =>
        if (0 <? List.length results)%nat then
          setJobs (fun prev => mergeAndSortJobs results prev) ;;
          addLog (lit "Scan complete. Discovered "
                  ++ ofZ (Z.of_nat (List.length results))
                  ++ lit " valid matches from current month.")
        else
          addLog (lit "Scan complete. No matches found within current month window.")
    | Throw error =>
        addLog (lit "ERR: Scan failed. " ++ errorMessage error)
    end ;;
    setIsScanning false.

(** [results.length > 0] is the case [first :: _], in which
    [results[0]] is [first]. *)
Definition handleAnalyzeText : M unit :=
  text <- getAnalyzeText ;;
  if falsy (trim text) then ret tt
  else
    setIsScanning true ;;
    addLog (lit "Analyzing raw job description...") ;;
    outcome <- awaitScanJobs ANALYZE (Some text) ;;
    match outcome with
    | Normal results =>
        match results with
        | first :: _ =>
            setJobs (fun prev => mergeAndSortJobs results prev) ;;
            addLog (lit "Analysis complete. Role qualified with score "
                    ++ ofZ (match_score first) ++ lit ".") ;;
            setAnalyzeText (lit "") ;;
            setActiveTab feed
        | [] =>
            addLog (lit "Analysis complete. Role rejected (Score < 60 or Non-Sweden/Old).")
        end
    | Throw error =>
        addLog (lit "ERR: Analysis failed. " ++ errorMessage error)
    end ;;
    setIsScanning false.
End Component.

End App.

(* ================================================================== *)
(** * A host for running the program on examples                       *)
(* ================================================================== *)

(** The results below hold for every [Host].  To evaluate the program on
    concrete records one host is fixed here: it reads publish dates in
    the format the agent is instructed to produce,
    [YYYY-MM-DDTHH:mm:ssZ], and gives [NaN] for any other string; it maps
    the upper-case letters of Basic Latin and Latin-1 to lower case; its
    JSON parser and its inference service are stubs that answer from
    tables, in the way §9 of the specification asks for deterministic
    stub responses. *)
Module Stub.

Definition digit (c : N) : option Z :=
  if ((48 <=? c) && (c <=? 57))%N then Some (Z.of_N c - 48) else None.

Fixpoint decimal (acc : Z) (l : list N) : option Z :=
  match l with
  | [] => Some acc
  | c :: l' =>
      match digit c with
      | Some d => decimal (10 * acc + d) l'
      | None => None
      end
  end.

Definition field (s : str) (start len : nat) : option Z :=
  decimal 0 (firstn len (skipn start s)).

Definition charAt (s : str) (i : nat) (c : N) : bool :=
  match nth_error s i with
  | Some x => (x =? c)%N
  | None => false
  end.

Definition isLeap (y : Z) : bool :=
  ((y mod 4 =? 0) && negb (y mod 100 =? 0)) || (y mod 400 =? 0).

Definition daysInMonth (y m : Z) : Z :=
  if m =? 2 then (if isLeap y then 29 else 28)
  else if (m =? 4) || (m =? 6) || (m =? 9) || (m =? 11) then 30
  else 31.

(** Days from 1970-01-01 to the civil date [y]-[m]-[d]. *)
Definition daysFromCivil (y m d : Z) : Z :=
  let y' := if m <=? 2 then y - 1 else y in
  let era := y' / 400 in
  let yoe := y' - era * 400 in
  let mp := (m + 9) mod 12 in
  let doy := (153 * mp + 2) / 5 + d - 1 in
  let doe := yoe * 365 + yoe / 4 - yoe / 100 + doy in
  era * 146097 + doe - 719468.

Definition isoGetTime (s : str) : number :=
  if (List.length s =? 20)%nat
     && charAt s 4 45 && charAt s 7 45 && charAt s 10 84
     && charAt s 13 58 && charAt s 16 58 && charAt s 19 90
  then
    match field s 0 4, field s 5 2, field s 8 2,
          field s 11 2, field s 14 2, field s 17 2 with
    | Some y, Some m, Some d, Some hh, Some mm, Some ss =>
        if (1 <=? m) && (m <=? 12) && (1 <=? d) && (d <=? daysInMonth y m)
           && (hh <=? 23) && (mm <=? 59) && (ss <=? 59)
        then Num ((((daysFromCivil y m d * 24 + hh) * 60 + mm) * 60 + ss) * 1000)
        else NaN
    | _, _, _, _, _, _ => NaN
    end
  else NaN.

Definition lowerUnit (c : N) : N :=
  (if (65 <=? c) && (c <=? 90) then c + 32
   else if (192 <=? c) && (c <=? 222) && negb (c =? 215) then c + 32
   else c)%N.

Definition latin1Lower (s : str) : str := List.map lowerUnit s.

Definition SyntaxError : exn :=
  ErrorObj (lit "SyntaxError") (lit "Unexpected token in JSON").

(** A parser that knows the texts of a table and rejects every other
    text. *)
Fixpoint tableParse (table : list (str * list JobAlert)) (text : str)
  : completion (list JobAlert) :=
  match table with
  | [] => Throw SyntaxError
  | (t, data) :: table' =>
      if list_eq_dec N.eq_dec t text then Normal data
      else tableParse table' text
  end.

Definition twoDigits (n : nat) : str :=
  let z := Z.of_nat n mod 60 in
  ofZ (z / 10) ++ ofZ (z mod 10).

(** The stub host: [key] is the API key, [replies] the answers of the
    service to the successive invocations (it fails once they run out),
    [table] the JSON texts the parser accepts. *)
Definition host (key : option str)
                (replies : list (completion (option str)))
                (table : list (str * list JobAlert)) : Host :=
  {| Date_getTime := isoGetTime;
     toLowerCase := latin1Lower;
     JSON_parse := tableParse table;
     localeTime := fun n => lit "09:30:" ++ twoDigits n;
     API_KEY := key;
     generateContent := fun n _ _ =>
       nth n replies (Throw (ErrorObj (lit "Error") (lit "fetch failed"))) |}.

(** A record with the fields the examples vary. *)
Definition job (title comp loc date : string) (score : Z) (src url : str)
  : JobAlert :=
  {| job_title := lit title; company := lit comp;
     primary_role := lit "Data Engineer"; location := lit loc;
     employment_type := Permanent; seniority := Mid;
     publish_date_utc := lit date; job_age_hours := 12 # 1;
     match_score := score; key_skills := [lit "SQL"];
     source := src; apply_url := url;
     alert_message_en := lit "New role"; alert_message_sv := lit "Ny roll" |}.

End Stub.

(* ================================================================== *)
(** * Vocabulary of the statements                                    *)
(* ================================================================== *)

(** The characters a URI may be written with (RFC 3986): unreserved and
    reserved characters and the percent sign of an escape. *)
Definition uriChar (c : N) : bool :=
  uriUnreserved c
  || existsb (N.eqb c) (lit ":/?#[]@$&+,;=%").


(** The three score categories and the class [getScoreColor] gives
    each. *)
Inductive ScoreTier := High | Medium | Low.

Definition scoreClass (t : ScoreTier) : str :=
  match t with
  | High => lit "text-emerald-400 border-emerald-500/50 bg-emerald-950/20"
  | Medium => lit "text-blue-400 border-blue-500/50 bg-blue-950/20"
  | Low => lit "text-yellow-400 border-yellow-500/50 bg-yellow-950/20"
  end.

(** The three age badges: "New" and "Recent" show the hours, "old" shows
    a number of days. *)
Definition newBadge (hours : Q) : JobCard.span :=
  {| JobCard.className := lit "px-2 py-0.5 bg-emerald-500/20 text-emerald-300 text-[10px] font-bold uppercase tracking-wider rounded border border-emerald-500/30";
     JobCard.children := [JobCard.Text (lit "New ("); JobCard.Value hours;
                          JobCard.Text (lit "h)")] |}.

Definition recentBadge (hours : Q) : JobCard.span :=
  {| JobCard.className := lit "px-2 py-0.5 bg-blue-500/20 text-blue-300 text-[10px] font-bold uppercase tracking-wider rounded border border-blue-500/30";
     JobCard.children := [JobCard.Text (lit "Recent ("); JobCard.Value hours;
                          JobCard.Text (lit "h)")] |}.

Definition agedBadge (days : Z) : JobCard.span :=
  {| JobCard.className := lit "px-2 py-0.5 bg-slate-700 text-slate-400 text-[10px] font-bold uppercase tracking-wider rounded border border-slate-600";
     JobCard.children := [JobCard.Value (inject_Z days);
                          JobCard.Text (lit "d old")] |}.

(** The fallback of the resolver triggers: the supplied URL is empty,
    shorter than 5 code units, or holds the placeholder host. *)
Definition fallbackTriggers (job : JobAlert) : Prop :=
  apply_url job = []
  \/ (List.length (apply_url job) < 5)%nat
  \/ includes (apply_url job) (lit "example.com") = true.

(** The four URLs of the fallback, for an encoded query [q] and an
    encoded location [loc]. *)
Definition linkedInSearch (q loc : str) : str :=
  lit "https://www.linkedin.com/jobs/search/?keywords=" ++ q
  ++ lit "&location=" ++ loc.

Definition platsbankenSearch (q : str) : str :=
  lit "https://platsbanken.arbetsformedlingen.se/platsannonser/sok?q=" ++ q.

Definition indeedSearch (q loc : str) : str :=
  lit "https://se.indeed.com/jobs?q=" ++ q ++ lit "&l=" ++ loc.

Definition webSearch (q loc : str) : str :=
  lit "https://www.google.com/search?q=" ++ q ++ lit "+job+" ++ loc.

(** Records for the examples of the resolver. *)
Definition exampleHost : Host := Stub.host (Some (lit "key")) [] [].

Definition trustedJob : JobAlert :=
  Stub.job "Data Engineer" "Acme" "Stockholm" "2026-11-01T08:00:00Z" 80
           (lit "LinkedIn") (lit "https://company.example/apply/123").

Definition linkedInJob : JobAlert :=
  Stub.job "Data Engineer" "Acme" "Stockholm" "2026-11-01T08:00:00Z" 80
           (lit "LinkedIn") (lit "").

Definition unknownBoardJob : JobAlert :=
  Stub.job "BI Developer" "Acme" "" "2026-11-01T08:00:00Z" 80
           (lit "Unknown Board") (lit "https://example.com/jobs/1").

(** A record whose supplied link is free text. *)
Definition freeTextLinkJob : JobAlert :=
  Stub.job "Data Engineer" "Acme" "Stockholm" "2026-11-01T08:00:00Z" 80
           (lit "LinkedIn") (lit "apply via email").

(** A record whose title ends in an unpaired surrogate (the JSON text
    ["Data Engineer \ud83d"] parses to it) and has no link. *)
Definition loneSurrogateJob : JobAlert :=
  {| job_title := lit "Data Engineer " ++ [55357%N]; company := lit "Acme";
     primary_role := lit "Data Engineer"; location := lit "Stockholm";
     employment_type := Permanent; seniority := Mid;
     publish_date_utc := lit "2026-11-01T08:00:00Z"; job_age_hours := 12 # 1;
     match_score := 80; key_skills := [lit "SQL"];
     source := lit "LinkedIn"; apply_url := lit "";
     alert_message_en := lit "New role"; alert_message_sv := lit "Ny roll" |}.

(** The order of the reconciler.  [instant j] is the publish date of [j]
    as the comparator reads it; [precedes a b] is the order invariant
    between an earlier [a] and a later [b]: [a] is strictly newer, or the
    instants are equal and [a] scores at least as high; [fresher a b]
    says that [a] is strictly newer than [b]. *)
Section Order.
Context `{Host}.

Definition instant (j : JobAlert) : number :=
  Date_getTime (publish_date_utc j).

Definition dated (j : JobAlert) : Prop := exists t, instant j = Num t.

Definition precedes (a b : JobAlert) : Prop :=
  exists ta tb,
    instant a = Num ta /\ instant b = Num tb
    /\ (tb < ta \/ ta = tb /\ match_score b <= match_score a).

Definition fresher (a b : JobAlert) : Prop :=
  exists ta tb, instant a = Num ta /\ instant b = Num tb /\ tb < ta.
End Order.

(** Records for the examples of the reconciler. *)
Definition octoberJob : JobAlert :=
  Stub.job "Data Analyst" "Acme" "Stockholm" "2026-10-01T08:00:00Z" 95
           (lit "LinkedIn") (lit "").

Definition novemberJob : JobAlert :=
  Stub.job "BI Developer" "Borg" "Lund" "2026-11-01T08:00:00Z" 60
           (lit "Indeed") (lit "").

Definition novemberTopJob : JobAlert :=
  Stub.job "Data Engineer" "Cura" "Malmo" "2026-11-01T08:00:00Z" 90
           (lit "Platsbanken") (lit "").

(** A record whose publish date is the word the agent is told to use when
    the text has no date. *)
Definition undatedJob : JobAlert :=
  Stub.job "Analytics Engineer" "Dala" "Umea" "Unknown" 70
           (lit "Indeed") (lit "").

(** The two user actions that invoke the collaborator.  [handler t] is
    the handler of the action; [reachesCall t w] says that from [w] it
    gets as far as the call (the scan needs an API key, the analysis a
    text that is not blank); [request t w] is the call it makes and
    [outcomeOf t w] the outcome of that call; [announce t] is what the
    handler logs before the call; [failureLine t n error] is the log
    line of the failure [error] stamped with the [n]-th clock reading. *)
Inductive Trigger := Scan | Analysis.

Section Triggers.
Context `{Host}.
Import App.

Definition handler (t : Trigger) : M unit :=
  match t with
  | Scan => handleSimulateScan
  | Analysis => handleAnalyzeText
  end.

Definition reachesCall (t : Trigger) (w : World) : Prop :=
  match t with
  | Scan => missing API_KEY = false
  | Analysis => trim (analyzeText (ui w)) <> []
  end.

Definition request (t : Trigger) (w : World) : Mode * option str :=
  match t with
  | Scan => (SIMULATE, None)
  | Analysis => (ANALYZE, Some (analyzeText (ui w)))
  end.

Definition outcomeOf (t : Trigger) (w : World) : completion (list JobAlert) :=
  GeminiService.scanJobs (List.length (invocations w))
                         (fst (request t w)) (snd (request t w)).

Definition announce (t : Trigger) : M unit :=
  match t with
  | Scan =>
      addLog (lit "Initiating market scan for current month...") ;;
      addLog (lit "Targeting sources: Platsbanken, LinkedIn, Indeed...")
  | Analysis => addLog (lit "Analyzing raw job description...")
  end.

Definition failureLine (t : Trigger) (n : nat) (error : exn) : str :=
  lit "[" ++ localeTime n ++ lit "] "
  ++ match t with
     | Scan => lit "ERR: Scan failed. "
     | Analysis => lit "ERR: Analysis failed. "
     end
  ++ errorMessage error.
End Triggers.

(** Worlds and hosts for the examples of the handlers. *)
Definition worldWith (held : list JobAlert) (text : str) (lines : list str)
  : App.World :=
  {| App.ui := {| App.jobs := held; App.isScanning := false;
                  App.activeTab := App.analyze; App.analyzeText := text;
                  App.logs := lines |};
     App.clockReads := 0; App.invocations := []; App.alerts := [] |}.

(** A host whose service fails with "quota exceeded". *)
Definition failingHost : Host :=
  Stub.host (Some (lit "key"))
            [Throw (ErrorObj (lit "Error") (lit "quota exceeded"))] [].

(** A host whose service answers with text that is no JSON. *)
Definition garbledHost : Host :=
  Stub.host (Some (lit "key")) [Normal (Some (lit "Sorry, no jobs."))] [].

(** A host whose service answers with the empty text. *)
Definition silentHost : Host :=
  Stub.host (Some (lit "key")) [Normal (Some (lit ""))] [].

(* ================================================================== *)
(** * The rendered values of [App.tsx]                                 *)
(* ================================================================== *)

Module Render.

Import App.



(** [disabled={isScanning}] of the scan button. *)
Definition scanDisabled (s : State) : bool := isScanning s.

(** [disabled={isScanning || !analyzeText}] of the process button. *)
Definition processDisabled (s : State) : bool :=
  isScanning s || falsy (analyzeText s).

End Render.

(* ================================================================== *)
(** * Vocabulary of the further statements                             *)
(* ================================================================== *)

(** What [encodeURIComponent] writes: unreserved characters and the
    percent sign. *)
Definition escapedChar (c : N) : bool := uriUnreserved c || (c =? 37)%N.

(** [url] is one of the four searches of the fallback for [q] and
    [loc]. *)
Definition searchUrl (q loc url : str) : Prop :=
  url = linkedInSearch q loc \/ url = platsbankenSearch q
  \/ url = indeedSearch q loc \/ url = webSearch q loc.


(** The rank of a score class: 2 for "high", 1 for "medium", 0 for any
    other class. *)
Definition tierRank (class : str) : Z :=
  if list_eq_dec N.eq_dec class (scoreClass High) then 2
  else if list_eq_dec N.eq_dec class (scoreClass Medium) then 1
  else 0.

(** A record whose link mentions the placeholder host in its query. *)
Definition referrerLinkJob : JobAlert :=
  Stub.job "Data Engineer" "Acme" "Lund" "2026-11-01T08:00:00Z" 80
           (lit "Indeed") (lit "https://jobs.acme.se/42?ref=example.com").

(** How the sort reads what the comparator returns: its sign, with [NaN]
    read as [+0]. *)
Definition signOf (v : number) : Z :=
  match v with
  | Num z => Z.sgn z
  | NaN => 0
  end.

Section Ties.
Context `{Host}.

(** [a] and [b] have the same instant and the same score. *)
Definition sameKeys (a b : JobAlert) : bool :=
  match instant a, instant b with
  | Num x, Num y => (x =? y) && (match_score a =? match_score b)
  | _, _ => false
  end.

End Ties.

Section Logging.
Context `{Host}.
Import App.

(** [addLog] for each message in turn. *)
Fixpoint addLogs (messages : list str) : M unit :=
  match messages with
  | [] => ret tt
  | message :: rest => addLog message ;; addLogs rest
  end.

(** The line [addLog] makes of [message] at the [n]-th clock reading. *)
Definition stamped (n : nat) (message : str) : str :=
  lit "[" ++ localeTime n ++ lit "] " ++ message.

Fixpoint stampedFrom (n : nat) (messages : list str) : list str :=
  match messages with
  | [] => []
  | message :: rest => stamped n message :: stampedFrom (S n) rest
  end.

(** The line a handler logs for a batch that arrived. *)
Definition successLine (t : Trigger) (n : nat) (results : list JobAlert) : str :=
  stamped n
    match t with
    | Scan =>
        lit "Scan complete. Discovered "
        ++ ofZ (Z.of_nat (List.length results))
        ++ lit " valid matches from current month."
    | Analysis =>
        lit "Analysis complete. Role qualified with score "
        ++ match results with
           | first :: _ => ofZ (match_score first)
           | [] => []
           end
        ++ lit "."
    end.

(** The line a handler logs for an empty result. *)
Definition emptyLine (t : Trigger) (n : nat) : str :=
  stamped n
    match t with
    | Scan => lit "Scan complete. No matches found within current month window."
    | Analysis =>
        lit "Analysis complete. Role rejected (Score < 60 or Non-Sweden/Old)."
    end.

End Logging.

(** A host without an API key. *)
Definition keylessHost : Host := Stub.host None [] [].

(** A host whose service answers once with a text that the parser reads
    as the two November records. *)
Definition batchHost : Host :=
  Stub.host (Some (lit "key")) [Normal (Some (lit "<two records>"))]
            [(lit "<two records>", [novemberJob; novemberTopJob])].

(* ================================================================== *)
(** * The component as a machine of events                             *)
(* ================================================================== *)

(** A handler is an [async] function: it runs up to its [await], the
    call is in flight while other events are handled, and the handler
    resumes when the call settles.  [startScan] and [startAnalysis] are
    the handlers up to the [await] and give the outcome the call will
    settle with, if a call was made; [resumeScan] and [resumeAnalysis]
    are the rest of the handlers.  Every update after the [await] is a
    function of the state at that time ([setJobs(prev => ...)],
    [setLogs(prev => ...)]) or sets a constant. *)
Module Session.

Import App.

Definition Outcome : Type := completion (list JobAlert).

Section Halves.
Context `{Host}.

Definition startScan : M (option Outcome) :=
  if missing API_KEY then
    alert (lit "Please set your API_KEY in the environment variables.") ;;
    ret None
  else
    setIsScanning true ;;
    addLog (lit "Initiating market scan for current month...") ;;
    addLog (lit "Targeting sources: Platsbanken, LinkedIn, Indeed...") ;;
    outcome <- awaitScanJobs SIMULATE None ;;
    ret (Some outcome).

Definition resumeScan (outcome : Outcome) : M unit :=
  match outcome with
  | Normal results =>
      if (0 <? List.length results)%nat then
        setJobs (fun prev => mergeAndSortJobs results prev) ;;
        addLog (lit "Scan complete. Discovered "
                ++ ofZ (Z.of_nat (List.length results))
                ++ lit " valid matches from current month.")
      else
        addLog (lit "Scan complete. No matches found within current month window.")
  | Throw error =>
      addLog (lit "ERR: Scan failed. " ++ errorMessage error)
  end ;;
  setIsScanning false.

Definition startAnalysis : M (option Outcome) :=
  text <- getAnalyzeText ;;
  if falsy (trim text) then ret None
  else
    setIsScanning true ;;
    addLog (lit "Analyzing raw job description...") ;;
    outcome <- awaitScanJobs ANALYZE (Some text) ;;
    ret (Some outcome).

Definition resumeAnalysis (outcome : Outcome) : M unit :=
  match outcome with
  | Normal results =>
      match results with
      | first :: _ =>
          setJobs (fun prev => mergeAndSortJobs results prev) ;;
          addLog (lit "Analysis complete. Role qualified with score "
                  ++ ofZ (match_score first) ++ lit ".") ;;
          setAnalyzeText (lit "") ;;
          setActiveTab feed
      | [] =>
          addLog (lit "Analysis complete. Role rejected (Score < 60 or Non-Sweden/Old).")
      end
  | Throw error =>
      addLog (lit "ERR: Analysis failed. " ++ errorMessage error)
  end ;;
  setIsScanning false.

Definition start (t : Trigger) : M (option Outcome) :=
  match t with
  | Scan => startScan
  | Analysis => startAnalysis
  end.

Definition resume (t : Trigger) (outcome : Outcome) : M unit :=
  match t with
  | Scan => resumeScan outcome
  | Analysis => resumeAnalysis outcome
  end.

End Halves.

(** The component between two events: its state and effects so far, and
    the calls in flight, each with the trigger that made it and the
    outcome it will settle with. *)
Record session := {
  world : World;
  pending : list (Trigger * Outcome)
}.

(** What can happen: a click on one of the two tab buttons, on the scan
    button or on the process button, an edit of the text area, and the
    settling of the [i]-th call in flight. *)
Inductive Event :=
| ClickLiveMonitor
| ClickAnalyzeTab
| ClickScan
| ChangeText (value : str)
| ClickProcess
| Settle (i : nat).

Definition onFeed (s : State) : bool :=
  match activeTab s with
  | feed => true
  | analyze => false
  end.

(** [useState] initial values, and nothing done yet. *)
Definition initial : session :=
  {| world := {| ui := {| jobs := []; isScanning := false; activeTab := feed;
                          analyzeText := lit ""; logs := [] |};
                 clockReads := 0; invocations := []; alerts := [] |};
     pending := [] |}.

Section Machine.
Context `{Host}.

Definition launch (t : Trigger) (s : session) : session :=
  let (made, w) := start t (world s) in
  {| world := w;
     pending := pending s ++ match made with
                             | Some outcome => [(t, outcome)]
                             | None => []
                             end |}.

(** The panel of the active tab is the only one rendered, and a disabled
    button does not fire. *)
Definition step (e : Event) (s : session) : session :=
  let state := ui (world s) in
  match e with
  | ClickLiveMonitor =>
      {| world := run (setActiveTab feed) (world s); pending := pending s |}
  | ClickAnalyzeTab =>
      {| world := run (setActiveTab analyze) (world s); pending := pending s |}
  | ClickScan =>
      if onFeed state && negb (Render.scanDisabled state)
      then launch Scan s else s
  | ChangeText value =>
      if onFeed state then s
      else {| world := run (setAnalyzeText value) (world s);
              pending := pending s |}
  | ClickProcess =>
      if negb (onFeed state) && negb (Render.processDisabled state)
      then launch Analysis s else s
  | Settle i =>
      match nth_error (pending s) i with
      | Some (t, outcome) =>
          {| world := run (resume t outcome) (world s);
             pending := firstn i (pending s) ++ skipn (S i) (pending s) |}
      | None => s
      end
  end.

Definition runEvents (events : list Event) (s : session) : session :=
  fold_left (fun s e => step e s) events s.

Definition reachable (s : session) : Prop :=
  exists events, s = runEvents events initial.

End Machine.

(** The parser gives only records whose publish date has an instant. *)
Definition parsesDated `{Host} : Prop :=
  forall text data, JSON_parse text = Normal data -> Forall dated data.

(** The collection is dated and in order, and every batch in flight is
    dated. *)
Definition ordered `{Host} (s : session) : Prop :=
  Forall dated (jobs (ui (world s)))
  /\ StronglySorted precedes (jobs (ui (world s)))
  /\ forall t results, In (t, Normal results) (pending s) ->
                       Forall dated results.

(** The button of a trigger, and whether it is rendered and enabled. *)
Definition clickOf (t : Trigger) : Event :=
  match t with
  | Scan => ClickScan
  | Analysis => ClickProcess
  end.

Definition enabled (t : Trigger) (s : State) : bool :=
  match t with
  | Scan => onFeed s && negb (Render.scanDisabled s)
  | Analysis => negb (onFeed s) && negb (Render.processDisabled s)
  end.

(** The clicks on the scan and the process button among [events]. *)
Definition clicks (events : list Event) : nat :=
  List.length (filter (fun e => match e with
                                | ClickScan | ClickProcess => true
                                | _ => false
                                end) events).

End Session.

(** A host whose parser reads the response text as two November records
    and whose service answers every invocation. *)
Definition busyHost : Host :=
  Stub.host (Some (lit "key"))
            [Normal (Some (lit "<two records>")); Normal (Some (lit ""));
             Throw OtherValue]
            [(lit "<two records>", [novemberJob; novemberTopJob])].
(* ================================================================== *)
(** * The host-independent built-ins on examples                       *)
(* ================================================================== *)

Example encode_space : encodeURIComponent (lit "Data Engineer Acme")
                       = Normal (lit "Data%20Engineer%20Acme").
Proof. reflexivity. Qed.

Example encode_o_umlaut : encodeURIComponent (lit "Malm" ++ [246%N])
                          = Normal (lit "Malm%C3%B6").
Proof. reflexivity. Qed.

Example encode_pair : encodeURIComponent [55357%N; 56832%N]
                      = Normal (lit "%F0%9F%98%80").
Proof. reflexivity. Qed.

Example encode_lone : encodeURIComponent [55296%N] = Throw URIError.
Proof. reflexivity. Qed.

Example ofZ_87 : ofZ 87 = lit "87" /\ ofZ 0 = lit "0" /\ ofZ (-3) = lit "-3".
Proof. repeat split; reflexivity. Qed.

Example iso_epoch :
  Stub.isoGetTime (lit "1970-01-01T00:00:00Z") = Num 0
  /\ Stub.isoGetTime (lit "2024-03-01T00:00:00Z") = Num 1709251200000
  /\ Stub.isoGetTime (lit "2026-11-02T08:15:30Z") = Num 1793607330000
  /\ Stub.isoGetTime (lit "Unknown") = NaN
  /\ Stub.isoGetTime (lit "2026-02-30T00:00:00Z") = NaN.
Proof. repeat split; vm_compute; reflexivity. Qed.

Example trim_examples : trim (lit "  ") = [] /\ trim (lit " a b ") = lit "a b".
Proof. split; reflexivity. Qed.

(* ================================================================== *)
(** * Facts about the built-ins                                        *)
(* ================================================================== *)

(** Turns boolean comparisons on [N], [Z] and [nat] into propositions. *)
Ltac reflect_bool :=
  repeat first
    [ rewrite orb_true_iff | rewrite andb_true_iff
    | rewrite orb_false_iff | rewrite andb_false_iff
    | rewrite negb_true_iff | rewrite negb_false_iff
    | rewrite N.leb_le | rewrite N.ltb_lt | rewrite N.eqb_eq
    | rewrite N.leb_gt | rewrite N.ltb_ge | rewrite N.eqb_neq
    | rewrite Z.leb_le | rewrite Z.ltb_lt | rewrite Z.eqb_eq
    | rewrite Z.leb_gt | rewrite Z.ltb_ge | rewrite Z.eqb_neq
    | rewrite Nat.ltb_lt | rewrite Nat.ltb_ge ].

Ltac reflect_bool_in H :=
  repeat first
    [ rewrite orb_true_iff in H | rewrite andb_true_iff in H
    | rewrite orb_false_iff in H | rewrite andb_false_iff in H
    | rewrite negb_true_iff in H | rewrite negb_false_iff in H
    | rewrite N.leb_le in H | rewrite N.ltb_lt in H | rewrite N.eqb_eq in H
    | rewrite N.leb_gt in H | rewrite N.ltb_ge in H | rewrite N.eqb_neq in H
    | rewrite Z.leb_le in H | rewrite Z.ltb_lt in H | rewrite Z.eqb_eq in H
    | rewrite Z.leb_gt in H | rewrite Z.ltb_ge in H | rewrite Z.eqb_neq in H
    | rewrite Nat.ltb_lt in H | rewrite Nat.ltb_ge in H ].

(** Induction that follows the recursion of [encodeURIComponent] and
    [isWellFormed], which consume one code unit or a surrogate pair. *)
Lemma str_pair_ind (P : str -> Prop) :
  P [] ->
  (forall c rest,
      P rest ->
      (forall c2 rest', rest = c2 :: rest' -> P rest') ->
      P (c :: rest)) ->
  forall s, P s.
Proof.
  intros Hnil Hcons s.
  assert (Hboth : P s /\ (forall c2 s', s = c2 :: s' -> P s')).
  { induction s as [|c rest [IH1 IH2]].
    - split; [exact Hnil | discriminate].
    - split.
      + apply Hcons; assumption.
      + intros c2 s' E. injection E as _ <-. exact IH1. }
  exact (proj1 Hboth).
Qed.

Lemma or_else_empty (s : str) : or_else s (lit "") = s.
Proof. destruct s; reflexivity. Qed.

Lemma falsy_nil (s : str) : falsy s = true <-> s = [].
Proof. destruct s; simpl; split; congruence. Qed.

Lemma startsWith_app (p s : str) : startsWith (p ++ s) p = true.
Proof.
  induction p as [|c p IH]; simpl.
  - destruct s; reflexivity.
  - rewrite N.eqb_refl. exact IH.
Qed.

Lemma uriUnreserved_uriChar (c : N) : uriUnreserved c = true -> uriChar c = true.
Proof. unfold uriChar. intros ->. reflexivity. Qed.

Lemma land_15_lt (n : N) : (N.land n 15 < 16)%N.
Proof.
  change 15%N with (N.ones 4). rewrite N.land_ones.
  apply N.mod_lt. discriminate.
Qed.

Lemma hexDigit_unreserved (d : N) : (d < 16)%N -> uriUnreserved (hexDigit d) = true.
Proof.
  intros Hd. unfold hexDigit, uriUnreserved.
  destruct (d <? 10)%N eqn:E; reflect_bool_in E; reflect_bool; lia.
Qed.

Lemma percent_chars (o : N) : forallb uriChar (percent o) = true.
Proof.
  unfold percent. simpl.
  rewrite !uriUnreserved_uriChar by (apply hexDigit_unreserved, land_15_lt).
  reflexivity.
Qed.

Lemma percentAll_chars (os : list N) : forallb uriChar (percentAll os) = true.
Proof.
  induction os as [|o os IH].
  - reflexivity.
  - change (percentAll (o :: os)) with (percent o ++ percentAll os).
    rewrite forallb_app, IH, percent_chars. reflexivity.
Qed.

Lemma percentAll_nonempty (cp : N) : percentAll (utf8 cp) <> [].
Proof.
  unfold utf8.
  destruct (cp <? 128)%N; [|destruct (cp <? 2048)%N; [|destruct (cp <? 65536)%N]];
    discriminate.
Qed.

(** Whatever [encodeURIComponent] returns is written with unreserved
    characters and percent escapes only. *)
Lemma encodeURIComponent_chars (s q : str) :
  encodeURIComponent s = Normal q -> forallb uriChar q = true.
Proof.
  revert q. induction s as [|c rest IH1 IH2] using str_pair_ind; intros q.
  - simpl. intros [= <-]. reflexivity.
  - simpl. destruct (uriUnreserved c) eqn:Eu.
    + destruct (encodeURIComponent rest) as [r|] eqn:Er; simpl; [|discriminate].
      intros [= <-]. simpl. rewrite (uriUnreserved_uriChar _ Eu), (IH1 r eq_refl).
      reflexivity.
    + destruct (isTrailSurrogate c); [discriminate|].
      destruct (isLeadSurrogate c).
      * destruct rest as [|c2 rest']; [discriminate|].
        destruct (isTrailSurrogate c2); [|discriminate].
        destruct (encodeURIComponent rest') as [r|] eqn:Er; simpl; [|discriminate].
        intros [= <-]. rewrite forallb_app, percentAll_chars.
        exact (IH2 c2 rest' eq_refl r Er).
      * destruct (encodeURIComponent rest) as [r|] eqn:Er; simpl; [|discriminate].
        intros [= <-]. rewrite forallb_app, percentAll_chars.
        exact (IH1 r eq_refl).
Qed.

(** [encodeURIComponent] throws on exactly the strings that are not well
    formed. *)
Lemma encodeURIComponent_defined (s : str) :
  isWellFormed s = true -> exists q, encodeURIComponent s = Normal q.
Proof.
  induction s as [|c rest IH1 IH2] using str_pair_ind.
  - intros _. exists []. reflexivity.
  - simpl. destruct (isTrailSurrogate c) eqn:Et.
    + discriminate.
    + destruct (isLeadSurrogate c) eqn:El.
      * destruct rest as [|c2 rest']; [discriminate|].
        intros Hw. apply andb_true_iff in Hw as [Ht Hw].
        destruct (IH2 c2 rest' eq_refl Hw) as [r Er].
        destruct (uriUnreserved c) eqn:Eu.
        -- exfalso. unfold uriUnreserved in Eu. unfold isLeadSurrogate in El.
           reflect_bool_in Eu. reflect_bool_in El. lia.
        -- rewrite Ht, Er. simpl. eauto.
      * intros Hw. destruct (IH1 Hw) as [r Er]. rewrite Er.
        destruct (uriUnreserved c); simpl; eauto.
Qed.

Lemma encodeURIComponent_throws (s : str) :
  isWellFormed s = false -> encodeURIComponent s = Throw URIError.
Proof.
  induction s as [|c rest IH1 IH2] using str_pair_ind.
  - discriminate.
  - simpl. destruct (isTrailSurrogate c) eqn:Et.
    + intros _. destruct (uriUnreserved c) eqn:Eu; [|reflexivity].
      exfalso. unfold uriUnreserved in Eu. unfold isTrailSurrogate in Et.
      reflect_bool_in Eu. reflect_bool_in Et. lia.
    + destruct (isLeadSurrogate c) eqn:El.
      * assert (Eu : uriUnreserved c = false).
        { destruct (uriUnreserved c) eqn:Eu; [|reflexivity].
          exfalso. unfold uriUnreserved in Eu. unfold isLeadSurrogate in El.
          reflect_bool_in Eu. reflect_bool_in El. lia. }
        rewrite Eu. destruct rest as [|c2 rest']; [reflexivity|].
        destruct (isTrailSurrogate c2); simpl; [|reflexivity].
        intros Hw. rewrite (IH2 c2 rest' eq_refl Hw). reflexivity.
      * intros Hw. rewrite (IH1 Hw).
        destruct (uriUnreserved c); reflexivity.
Qed.

Lemma isWellFormed_app (a b : str) :
  isWellFormed a = true -> isWellFormed b = true -> isWellFormed (a ++ b) = true.
Proof.
  intros Ha Hb. revert Ha.
  induction a as [|c rest IH1 IH2] using str_pair_ind.
  - intros _. exact Hb.
  - simpl. destruct (isTrailSurrogate c); [discriminate|].
    destruct (isLeadSurrogate c).
    + destruct rest as [|c2 rest']; [discriminate|].
      simpl. intros Hw. apply andb_true_iff in Hw as [-> Hw].
      exact (IH2 c2 rest' eq_refl Hw).
    + exact IH1.
Qed.

(** ** Double precision *)

Lemma pow2_pos (q : Z) : (0 < pow2 q)%Q.
Proof. apply Qpower_0_lt. reflexivity. Qed.

Lemma pow2_add (a b : Z) : (pow2 (a + b) == pow2 a * pow2 b)%Q.
Proof. apply Qpower_plus. discriminate. Qed.

Lemma pow2_Z (a : Z) : 0 <= a -> (pow2 a == inject_Z (2 ^ a))%Q.
Proof. intros Ha. symmetry. apply (Zpower_Qpower 2 a Ha). Qed.

Lemma pow2_opp (a : Z) : (pow2 (- a) == / pow2 a)%Q.
Proof. apply Qpower_opp. Qed.

Lemma pow2_le (a b : Z) : a <= b -> (pow2 a <= pow2 b)%Q.
Proof. intros H. apply Qpower_le_compat_l; [exact H | discriminate]. Qed.

Lemma pow2_lt_inv (a b : Z) : (pow2 a < pow2 b)%Q -> a < b.
Proof. intros H. apply (Qpower_lt_compat_l_inv (2 # 1)); [exact H | reflexivity]. Qed.

Lemma binade_le (x : Q) : (0 < x)%Q -> (pow2 (binade x) <= x)%Q.
Proof.
  intros Hx. unfold binade.
  destruct x as [n d]. cbn [Qnum Qden].
  set (a := Z.log2 n). set (b := Z.log2 (Z.pos d)).
  destruct (Qle_bool (pow2 (a - b)) (n # d)) eqn:E.
  - apply Qle_bool_iff. exact E.
  - assert (Hn : 0 < n) by (unfold Qlt in Hx; simpl in Hx; lia).
    pose proof (Z.log2_spec n Hn) as [Ha _]. fold a in Ha.
    pose proof (Z.log2_spec (Z.pos d) ltac:(lia)) as [_ Hb]. fold b in Hb.
    assert (Ha0 : 0 <= a) by apply Z.log2_nonneg.
    assert (Hb0 : 0 <= b) by apply Z.log2_nonneg.
    replace (a - b - 1) with (a + - (Z.succ b)) by lia.
    rewrite pow2_add, pow2_opp, (pow2_Z a Ha0), (pow2_Z (Z.succ b)) by lia.
    rewrite (Qmake_Qdiv n d).
    assert (H1 : (inject_Z (2 ^ a) <= inject_Z n)%Q)
      by (rewrite <- Zle_Qle; exact Ha).
    assert (H2 : (inject_Z (Z.pos d) < inject_Z (2 ^ Z.succ b))%Q)
      by (rewrite <- Zlt_Qlt; exact Hb).
    assert (H3 : (0 < inject_Z (Z.pos d))%Q) by reflexivity.
    assert (H4 : (0 < inject_Z (2 ^ a))%Q).
    { rewrite <- (pow2_Z a Ha0). apply pow2_pos. }
    set (A := inject_Z (2 ^ a)) in *. set (N := inject_Z n) in *.
    set (D := inject_Z (Z.pos d)) in *.
    set (B := inject_Z (2 ^ Z.succ b)) in *.
    apply Qle_shift_div_l; [exact H3|].
    apply Qle_trans with A; [|exact H1].
    assert (H5 : (A * / B * D == A * (D / B))%Q) by (field; lra).
    rewrite H5.
    assert (H6 : (D / B <= 1)%Q).
    { apply Qle_shift_div_r; lra. }
    rewrite <- (Qmult_1_r A) at 2.
    apply Qmult_le_l; [exact H4 | exact H6].
Qed.

Lemma roundEven_floor (y : Q) :
  Qfloor y <= roundEven y <= Qfloor y + 1.
Proof.
  unfold roundEven. destruct (y - inject_Z (Qfloor y) ?= 1 # 2)%Q; try lia.
  destruct (Z.even (Qfloor y)); lia.
Qed.

Lemma roundEven_ge (n : Z) (y : Q) : (inject_Z n <= y)%Q -> n <= roundEven y.
Proof.
  intros H. pose proof (Qfloor_resp_le _ _ H) as Hf. rewrite Qfloor_Z in Hf.
  pose proof (roundEven_floor y). lia.
Qed.

Lemma roundEven_below (n : Z) (y : Q) :
  (y <= inject_Z n - (2 # 3))%Q -> roundEven y <= n - 1.
Proof.
  intros H. pose proof (Qfloor_le y) as Hf.
  assert (Hlt : Qfloor y < n).
  { rewrite Zlt_Qlt. lra. }
  unfold roundEven.
  destruct (y - inject_Z (Qfloor y) ?= 1 # 2)%Q eqn:E.
  - apply Qeq_alt in E.
    assert (Qfloor y + 1 < n).
    { rewrite Zlt_Qlt, inject_Z_plus. change (inject_Z 1) with 1%Q. lra. }
    destruct (Z.even (Qfloor y)); lia.
  - lia.
  - apply Qgt_alt in E.
    assert (Qfloor y + 1 < n).
    { rewrite Zlt_Qlt, inject_Z_plus. change (inject_Z 1) with 1%Q. lra. }
    lia.
Qed.

Lemma Qfloor_unique (k : Z) (z : Q) :
  (inject_Z k <= z)%Q -> (z < inject_Z (k + 1))%Q -> Qfloor z = k.
Proof.
  intros Hlo Hhi.
  pose proof (Qfloor_le z) as H1. pose proof (Qlt_floor z) as H2.
  assert (Qfloor z < k + 1) by (rewrite Zlt_Qlt; lra).
  assert (k < Qfloor z + 1) by (rewrite Zlt_Qlt; lra).
  lia.
Qed.

Lemma grid (m q c : Z) :
  Z.abs m < 2 ^ 53 -> (pow2 c <= inject_Z m * pow2 q)%Q -> c < 53 + q.
Proof.
  intros Hm Hc. apply pow2_lt_inv.
  apply Qle_lt_trans with (inject_Z m * pow2 q)%Q; [exact Hc|].
  rewrite pow2_add, (pow2_Z 53) by lia.
  apply Qmult_lt_r; [apply pow2_pos|].
  rewrite <- Zlt_Qlt. lia.
Qed.

(** Below [24 * 2^52] hours the floor of the rounded quotient is the
    floor of the exact quotient: the age is on a grid sixteen times
    coarser than the quotient's, so the exact quotient is never within
    half a step under a whole number. *)
Lemma quotient_floor (hours : Q) :
  isDouble hours -> (48 # 1 < hours)%Q -> (hours < inject_Z (24 * 2 ^ 52))%Q ->
  Math_floor (divide hours (24 # 1)) = Qfloor (hours / (24 # 1)).
Proof.
  intros (mh & qh & Hm & _ & Eh) Hlo Hhi.
  set (x := (hours / (24 # 1))%Q).
  assert (Hx24 : (x * (24 # 1) == hours)%Q) by (unfold x; field).
  assert (Hx2 : (2 < x)%Q) by lra.
  assert (Hx52 : (x < pow2 52)%Q).
  { rewrite (pow2_Z 52) by lia.
    change (inject_Z (24 * 2 ^ 52)) with ((24 # 1) * inject_Z (2 ^ 52))%Q in Hhi.
    lra. }
  assert (Hpos : (0 < x)%Q) by lra.
  unfold Math_floor, divide. fold x.
  unfold toDouble. rewrite (proj1 (Qgt_alt x 0) Hpos).
  unfold nearestDouble.
  pose proof (binade_le x Hpos) as He.
  set (e := binade x) in *.
  assert (He51 : e <= 51).
  { assert (e < 52); [|lia]. apply pow2_lt_inv.
    apply Qle_lt_trans with x; assumption. }
  set (q := Z.max (e - 52) (-1074)).
  assert (Hq : q <= -1) by lia.
  (* the grid of [hours] *)
  assert (Hg1 : 5 < 53 + qh).
  { apply (grid mh qh 5 Hm). rewrite <- Eh.
    change (pow2 5) with (32 # 1)%Q. lra. }
  assert (Hg2 : e + 4 < 53 + qh).
  { apply (grid mh qh (e + 4) Hm). rewrite <- Eh, pow2_add.
    change (pow2 4) with (16 # 1)%Q. lra. }
  assert (Hgrid : 4 <= qh - q) by lia.
  (* scaling by 2^-q *)
  set (P := 2 ^ (- q)).
  assert (HP : 0 < P) by (apply Z.pow_pos_nonneg; lia).
  assert (EP : (pow2 q == / inject_Z P)%Q).
  { replace q with (- - q) at 1 by lia.
    rewrite pow2_opp, (pow2_Z (- q)) by lia. reflexivity. }
  assert (HPq : (0 < inject_Z P)%Q).
  { change (inject_Z 0 < inject_Z P)%Q. rewrite <- Zlt_Qlt. exact HP. }
  set (y := (x / pow2 q)%Q).
  assert (Ey : (y == x * inject_Z P)%Q).
  { unfold y. rewrite EP. field. lra. }
  set (k := Qfloor x).
  pose proof (Qfloor_le x) as Hk1. pose proof (Qlt_floor x) as Hk2.
  fold k in Hk1, Hk2.
  (* [hours * P] is an integer multiple of 16 *)
  set (I' := mh * 2 ^ (qh - q - 4)).
  assert (EI : (hours * inject_Z P == inject_Z (16 * I'))%Q).
  { rewrite Eh. unfold I'.
    replace (16 * (mh * 2 ^ (qh - q - 4))) with (mh * 2 ^ (qh - q)).
    - rewrite inject_Z_mult, <- (pow2_Z (qh - q)) by lia.
      replace (qh - q) with (qh + - q) by lia.
      rewrite pow2_add, (pow2_Z (- q)) by lia. fold P.
      symmetry. apply Qmult_assoc.
    - assert (E16 : 2 ^ (qh - q) = 16 * 2 ^ (qh - q - 4)).
      { replace (qh - q) with (4 + (qh - q - 4)) at 1 by lia.
        rewrite Z.pow_add_r by lia. reflexivity. }
      rewrite E16. set (t := 2 ^ (qh - q - 4)). ring. }
  set (P' := 2 ^ (- q - 1)).
  assert (EP' : P = 2 * P').
  { unfold P, P'. replace (- q) with (1 + (- q - 1)) at 1 by lia.
    rewrite Z.pow_add_r by lia. reflexivity. }
  (* the bounds of the rounded quotient *)
  set (m := roundEven y).
  assert (Hm1 : k * P <= m).
  { apply roundEven_ge. rewrite Ey, inject_Z_mult.
    apply Qmult_le_r; assumption. }
  assert (Hm2 : m <= (k + 1) * P - 1).
  { apply roundEven_below.
    assert (Hlt : 16 * I' < 24 * ((k + 1) * P)).
    { rewrite Zlt_Qlt, <- EI, !inject_Z_mult.
      change (inject_Z 24) with (24 # 1)%Q.
      rewrite <- Hx24.
      setoid_replace (x * (24 # 1) * inject_Z P)%Q
        with ((24 # 1) * (x * inject_Z P))%Q by ring.
      apply Qmult_lt_l; [reflexivity|].
      apply Qmult_lt_r; assumption. }
    assert (Hle : 16 * I' + 16 <= 24 * ((k + 1) * P)).
    { rewrite EP' in Hlt |- *. lia. }
    rewrite Zle_Qle, inject_Z_plus, <- EI, !inject_Z_mult in Hle.
    change (inject_Z 24) with (24 # 1)%Q in Hle.
    change (inject_Z 16) with (16 # 1)%Q in Hle.
    rewrite <- Hx24 in Hle.
    rewrite Ey, inject_Z_mult.
    set (xp := (x * inject_Z P)%Q) in *.
    setoid_replace (x * (24 # 1) * inject_Z P)%Q with ((24 # 1) * xp)%Q in Hle
      by (unfold xp; ring).
    lra. }
  (* the floor *)
  fold q y m.
  apply Qfloor_unique.
  - rewrite EP.
    apply Qle_shift_div_l; [exact HPq|].
    rewrite <- inject_Z_mult, <- Zle_Qle. exact Hm1.
  - rewrite EP.
    apply Qlt_shift_div_r; [exact HPq|].
    rewrite <- inject_Z_mult, <- Zlt_Qlt. lia.
Qed.

(* ================================================================== *)
(** * The job card: tiers and the apply-link resolver                  *)
(* ================================================================== *)

Import JobCard.

(** At [24 * 2^52 + 16] hours the badge shows one day more than the whole
    days of the age: the quotient [2^52 + 2/3] is rounded to the double
    [2^52 + 1] before the floor is taken. *)
Lemma extreme_age_shows_other_days :
  isDouble (108086391056891920 # 1)
  /\ getAgeBadge (108086391056891920 # 1) = agedBadge 4503599627370497
  /\ Qfloor ((108086391056891920 # 1) / (24 # 1)) = 4503599627370496.
Proof.
  split; [|split].
  - exists 6755399441055745, 4. split; [reflexivity|]. split; [lia|].
    reflexivity.
  - vm_compute. reflexivity.
  - vm_compute. reflexivity.
Qed.

(** C6, amended.  The score class and the age badge are functions of the
    number alone, defined for every value, and follow the thresholds: a
    score of 90 or more is "high", one from 75 up to 90 is "medium", any
    other is "low"; an age of at most 24 hours is "new", one above 24
    and at most 48 is "recent", one above 48 is "aged" and shown as the
    floor of the quotient by 24 as the engine computes it, in double
    precision; for an age below [24 * 2^52] hours that is
    floor(hours/24), the whole days of the age.  At 24, 25 and 49 hours
    the badge is "new", "recent" and "aged" with 2 days. *)
Theorem tiers_follow_thresholds (score : Z) (hours : Q) :
  isDouble hours ->
  (90 <= score /\ getScoreColor score = scoreClass High
   \/ 75 <= score < 90 /\ getScoreColor score = scoreClass Medium
   \/ score < 75 /\ getScoreColor score = scoreClass Low)
  /\ ((hours <= 24 # 1)%Q /\ getAgeBadge hours = newBadge hours
      \/ (24 # 1 < hours)%Q /\ (hours <= 48 # 1)%Q
         /\ getAgeBadge hours = recentBadge hours
      \/ (48 # 1 < hours)%Q
         /\ getAgeBadge hours = agedBadge (Math_floor (divide hours (24 # 1)))
         /\ ((hours < inject_Z (24 * 2 ^ 52))%Q ->
             Math_floor (divide hours (24 # 1)) = Qfloor (hours / (24 # 1))))
  /\ getAgeBadge (24 # 1) = newBadge (24 # 1)
  /\ getAgeBadge (25 # 1) = recentBadge (25 # 1)
  /\ getAgeBadge (49 # 1) = agedBadge 2.
Proof.
  intros Hd. split; [|split; [|repeat split]].
  - unfold getScoreColor.
    destruct (90 <=? score) eqn:E90; reflect_bool_in E90.
    + left. split; [lia | reflexivity].
    + destruct (75 <=? score) eqn:E75; reflect_bool_in E75.
      * right; left. split; [lia | reflexivity].
      * right; right. split; [lia | reflexivity].
  - unfold getAgeBadge.
    destruct (Qle_bool hours (24 # 1)) eqn:E24.
    + left. split; [apply Qle_bool_iff; exact E24 | reflexivity].
    + assert (H24 : (24 # 1 < hours)%Q).
      { apply Qnot_le_lt. intros Hle. apply Qle_bool_iff in Hle. congruence. }
      destruct (Qle_bool hours (48 # 1)) eqn:E48.
      * right; left. repeat split; [exact H24 | apply Qle_bool_iff; exact E48].
      * right; right.
        assert (H48 : (48 # 1 < hours)%Q).
        { apply Qnot_le_lt. intros Hle. apply Qle_bool_iff in Hle. congruence. }
        split; [exact H48|]. split; [reflexivity|].
        intros Hhi. apply quotient_floor; assumption.
Qed.

Lemma tiers_follow_thresholds_witness :
  getAgeBadge (100 # 1) = agedBadge (Math_floor (divide (100 # 1) (24 # 1)))
  /\ Math_floor (divide (100 # 1) (24 # 1)) = 4.
Proof.
  assert (Hd : isDouble (100 # 1)).
  { exists 100, 0. split; [reflexivity|]. split; [lia | reflexivity]. }
  destruct (proj1 (proj2 (tiers_follow_thresholds 80 (100 # 1) Hd)))
    as [[Hle _] | [(_ & Hle & _) | (_ & Hbadge & Hexact)]].
  - exfalso. apply (Qle_not_lt _ _ Hle). reflexivity.
  - exfalso. apply (Qle_not_lt _ _ Hle). reflexivity.
  - split; [exact Hbadge|]. rewrite Hexact; reflexivity.
Defined.

(** The three score classes differ, and so do the three badges. *)
Lemma tiers_distinct (h h' : Q) (d : Z) :
  scoreClass High <> scoreClass Medium /\ scoreClass Medium <> scoreClass Low
  /\ scoreClass High <> scoreClass Low
  /\ newBadge h <> recentBadge h' /\ recentBadge h <> agedBadge d
  /\ newBadge h <> agedBadge d.
Proof. repeat split; discriminate. Qed.

Section ResolverFacts.
Context `{Host}.

Lemma fallback_condition (job : JobAlert) :
  falsy (apply_url job) || (List.length (apply_url job) <? 5)%nat
  || includes (apply_url job) (lit "example.com") = true
  <-> fallbackTriggers job.
Proof.
  unfold fallbackTriggers.
  rewrite !orb_true_iff, falsy_nil, Nat.ltb_lt. tauto.
Qed.

(** The fallback as a function of the two encodings. *)
Lemma handleApply_fallback (job : JobAlert) (q loc : str) :
  fallbackTriggers job ->
  encodeURIComponent (job_title job ++ lit " " ++ company job) = Normal q ->
  encodeURIComponent (or_else (location job) (lit "Sweden")) = Normal loc ->
  handleApply job =
  Normal (let source := toLowerCase (source job) in
          if includes source (lit "linkedin") then linkedInSearch q loc
          else if includes source arbetsformedlingen
                  || includes source (lit "platsbanken")
               then platsbankenSearch q
          else if includes source (lit "indeed") then indeedSearch q loc
          else webSearch q loc).
Proof.
  intros Hf Hq Hloc. apply fallback_condition in Hf.
  unfold handleApply. rewrite Hf, Hq, Hloc. simpl.
  rewrite or_else_empty.
  destruct (includes _ (lit "linkedin")); [reflexivity|].
  destruct (includes _ arbetsformedlingen || includes _ (lit "platsbanken"));
    [reflexivity|].
  destruct (includes _ (lit "indeed")); reflexivity.
Qed.
End ResolverFacts.

(** C3.  A supplied link that is non-empty, at least 5 code units long and
    without "example.com" is returned verbatim; the fallback is not
    built, so the result does not depend on any other field of the
    record. *)
Theorem trusted_url_passthrough `{Host} (job : JobAlert) :
  apply_url job <> [] ->
  (5 <= List.length (apply_url job))%nat ->
  includes (apply_url job) (lit "example.com") = false ->
  handleApply job = Normal (apply_url job)
  /\ forall job', apply_url job' = apply_url job ->
                  handleApply job' = handleApply job.
Proof.
  intros Hne Hlen Hinc.
  assert (Hpass : forall j, apply_url j = apply_url job ->
                            handleApply j = Normal (apply_url job)).
  { intros j Ej. unfold handleApply. rewrite Ej, Hinc.
    destruct (apply_url job) as [|c u] eqn:Eu; [congruence|].
    replace (List.length (c :: u) <? 5)%nat with false
      by (symmetry; apply Nat.ltb_ge; exact Hlen).
    reflexivity. }
  split.
  - apply Hpass. reflexivity.
  - intros job' Ej. rewrite (Hpass job' Ej), (Hpass job eq_refl). reflexivity.
Qed.

Lemma trusted_url_passthrough_witness :
  handleApply (H := exampleHost) trustedJob
  = Normal (lit "https://company.example/apply/123").
Proof.
  refine (proj1 (trusted_url_passthrough (H := exampleHost) trustedJob _ _ _)).
  - discriminate.
  - vm_compute. lia.
  - reflexivity.
Defined.

(** The branches of the fallback.  When the fallback triggers, with [q]
    the URL-encoded "title company" and [loc] the URL-encoded location
    ("Sweden" when the record has none), the lower-cased source is
    inspected in order: "linkedin" gives the LinkedIn search for [q] and
    [loc]; else "arbetsförmedlingen" or "platsbanken" gives the
    Platsbanken search for [q] alone; else "indeed" gives the Indeed
    Sweden search for [q] and [loc]; otherwise the web search for
    "q job loc". *)
Lemma fallback_by_source `{Host} (job : JobAlert) (q loc : str) :
  fallbackTriggers job ->
  encodeURIComponent (job_title job ++ lit " " ++ company job) = Normal q ->
  encodeURIComponent (or_else (location job) (lit "Sweden")) = Normal loc ->
  let src := toLowerCase (source job) in
  (includes src (lit "linkedin") = true ->
   handleApply job = Normal (linkedInSearch q loc))
  /\ (includes src (lit "linkedin") = false ->
      includes src arbetsformedlingen = true
      \/ includes src (lit "platsbanken") = true ->
      handleApply job = Normal (platsbankenSearch q))
  /\ (includes src (lit "linkedin") = false ->
      includes src arbetsformedlingen = false ->
      includes src (lit "platsbanken") = false ->
      includes src (lit "indeed") = true ->
      handleApply job = Normal (indeedSearch q loc))
  /\ (includes src (lit "linkedin") = false ->
      includes src arbetsformedlingen = false ->
      includes src (lit "platsbanken") = false ->
      includes src (lit "indeed") = false ->
      handleApply job = Normal (webSearch q loc))
  /\ (location job = [] -> loc = lit "Sweden").
Proof.
  intros Hf Hq Hloc src.
  pose proof (handleApply_fallback job q loc Hf Hq Hloc) as E.
  cbv zeta in E. fold src in E.
  repeat split.
  - intros E1. rewrite E, E1. reflexivity.
  - intros E1 E2. rewrite E, E1.
    replace (includes src arbetsformedlingen || includes src (lit "platsbanken"))
      with true by (symmetry; apply orb_true_iff; exact E2).
    reflexivity.
  - intros E1 E2 E3 E4. rewrite E, E1, E2, E3, E4. reflexivity.
  - intros E1 E2 E3 E4. rewrite E, E1, E2, E3, E4. reflexivity.
  - intros El. rewrite El in Hloc. vm_compute in Hloc.
    injection Hloc as <-. reflexivity.
Qed.

(** The fifth testable property. *)
Example linkedin_fallback_example :
  handleApply (H := exampleHost) linkedInJob
  = Normal (lit "https://www.linkedin.com/jobs/search/?keywords=Data%20Engineer%20Acme&location=Stockholm").
Proof.
  refine (proj1 (fallback_by_source (H := exampleHost) linkedInJob
                   (lit "Data%20Engineer%20Acme") (lit "Stockholm") _ _ _) _).
  - left. reflexivity.
  - reflexivity.
  - reflexivity.
  - reflexivity.
Qed.

(** Before it looks at the source, the fallback encodes the title and
    company, then the location; a string among them that is not well
    formed makes the handler throw, and no URL is opened. *)
Lemma fallback_throws `{Host} (job : JobAlert) :
  fallbackTriggers job ->
  isWellFormed (job_title job ++ lit " " ++ company job) = false
  \/ isWellFormed (or_else (location job) (lit "Sweden")) = false ->
  handleApply job = Throw URIError.
Proof.
  intros Hf Hw. apply fallback_condition in Hf.
  unfold handleApply. rewrite Hf.
  destruct (isWellFormed (job_title job ++ lit " " ++ company job)) eqn:Wq.
  - destruct Hw as [Hw | Hw]; [discriminate|].
    destruct (encodeURIComponent_defined _ Wq) as [q ->]. simpl.
    rewrite (encodeURIComponent_throws _ Hw). reflexivity.
  - rewrite (encodeURIComponent_throws _ Wq). reflexivity.
Qed.

(** C4 at a record the code can receive: the link is empty, so the
    fallback triggers, and the source contains "linkedin", but the title
    ends in an unpaired surrogate; the handler throws a URIError and
    returns no LinkedIn URL. *)
Theorem fallback_throws_on_lone_surrogate :
  fallbackTriggers loneSurrogateJob
  /\ includes (toLowerCase (Host := exampleHost) (source loneSurrogateJob))
              (lit "linkedin") = true
  /\ handleApply (H := exampleHost) loneSurrogateJob = Throw URIError.
Proof. split; [left; reflexivity | split; reflexivity]. Qed.

(** The sixth testable property: a placeholder link and an unknown board
    give the web search, with "Sweden" for the missing location. *)
Example unknown_board_web_search :
  handleApply (H := exampleHost) unknownBoardJob
  = Normal (lit "https://www.google.com/search?q=BI%20Developer%20Acme+job+Sweden").
Proof. reflexivity. Qed.

(** Case does not matter for the letters of the platform names. *)
Example source_case_insensitive :
  handleApply (H := exampleHost)
    (Stub.job "BI Developer" "Acme" "Lund" "2026-11-01T08:00:00Z" 80
       (lit "ARBETSF" ++ [214%N] ++ lit "RMEDLINGEN") (lit ""))
  = Normal (platsbankenSearch (lit "BI%20Developer%20Acme")).
Proof. reflexivity. Qed.

(** The resolver has an error case and hands back links that are no URL:
    a title with an unpaired surrogate makes the handler throw the
    URIError of [encodeURIComponent], and a supplied link of free text is
    returned as it is, blanks included. *)
Lemma resolver_not_total_nor_wellformed :
  handleApply (H := exampleHost) loneSurrogateJob = Throw URIError
  /\ handleApply (H := exampleHost) freeTextLinkJob
     = Normal (lit "apply via email")
  /\ forallb uriChar (lit "apply via email") = false
  /\ startsWith (lit "apply via email") (lit "https://") = false.
Proof. repeat split; reflexivity. Qed.

(** C5, amended.  For a record whose supplied link passes the trust test
    (at least 5 code units, no "example.com"), or whose title, company
    and location are well-formed strings, the resolver returns a
    non-empty string: in the first case the supplied link itself, which
    is not checked to be a URL, and otherwise a string that starts with
    "https://" and is written with URI characters only. *)
Theorem resolver_result `{Host} (job : JobAlert) :
  ~ fallbackTriggers job
  \/ (isWellFormed (job_title job) = true
      /\ isWellFormed (company job) = true
      /\ isWellFormed (location job) = true) ->
  exists url,
    handleApply job = Normal url
    /\ url <> []
    /\ (~ fallbackTriggers job /\ url = apply_url job
        \/ fallbackTriggers job
           /\ startsWith url (lit "https://") = true
           /\ forallb uriChar url = true).
Proof.
  intros Hpre.
  destruct (falsy (apply_url job) || (List.length (apply_url job) <? 5)%nat
            || includes (apply_url job) (lit "example.com")) eqn:Ec.
  - pose proof (proj1 (fallback_condition job) Ec) as Hf.
    destruct Hpre as [Hn | (Wt & Wc & Wl)]; [contradiction|].
    destruct (encodeURIComponent_defined (job_title job ++ lit " " ++ company job))
      as [q Hq].
    { apply isWellFormed_app; [exact Wt|].
      apply isWellFormed_app; [reflexivity | exact Wc]. }
    destruct (encodeURIComponent_defined (or_else (location job) (lit "Sweden")))
      as [loc Hloc].
    { destruct (location job); [reflexivity | exact Wl]. }
    pose proof (encodeURIComponent_chars _ _ Hq) as Cq.
    pose proof (encodeURIComponent_chars _ _ Hloc) as Cloc.
    rewrite (handleApply_fallback job q loc Hf Hq Hloc). cbv zeta.
    destruct (includes _ (lit "linkedin"));
      [|destruct (includes _ arbetsformedlingen || includes _ (lit "platsbanken"));
        [|destruct (includes _ (lit "indeed"))]];
      eexists; (split; [reflexivity|]); (split; [discriminate|]);
      right; (split; [exact Hf|]); (split; [reflexivity|]);
      unfold linkedInSearch, platsbankenSearch, indeedSearch, webSearch;
      rewrite ?forallb_app, ?Cq, ?Cloc; reflexivity.
  - exists (apply_url job). unfold handleApply. rewrite Ec.
    split; [reflexivity|]. split.
    + intros E. rewrite E in Ec. discriminate.
    + left. split; [|reflexivity].
      intros Hf. apply fallback_condition in Hf. congruence.
Qed.

Lemma resolver_result_witness :
  exists url,
    handleApply (H := exampleHost) unknownBoardJob = Normal url
    /\ url <> []
    /\ (~ fallbackTriggers unknownBoardJob /\ url = apply_url unknownBoardJob
        \/ fallbackTriggers unknownBoardJob
           /\ startsWith url (lit "https://") = true
           /\ forallb uriChar url = true).
Proof.
  apply (resolver_result (H := exampleHost) unknownBoardJob).
  right. repeat split; reflexivity.
Defined.

(* ================================================================== *)
(** * The sort                                                         *)
(* ================================================================== *)

Section SortFacts.
Context {A : Type} (comparefn : A -> A -> number).

Lemma insert_perm (x : A) (l : list A) :
  Permutation (insert comparefn x l) (x :: l).
Proof.
  induction l as [|y l IH]; simpl.
  - reflexivity.
  - destruct (sortsAfter (comparefn x y)).
    + rewrite IH. apply perm_swap.
    + reflexivity.
Qed.

(** Whatever the comparator answers, sorting rearranges and nothing
    else. *)
Lemma sort_perm (l : list A) : Permutation (sort comparefn l) l.
Proof.
  induction l as [|x l IH]; simpl.
  - constructor.
  - rewrite insert_perm. constructor. exact IH.
Qed.

(** For elements on which the comparator agrees with a transitive
    relation [R], the result is sorted by [R]. *)
Context (ok : A -> Prop) (R : A -> A -> Prop).
Hypothesis after_R :
  forall x y, ok x -> ok y -> sortsAfter (comparefn x y) = true -> R y x.
Hypothesis keep_R :
  forall x y, ok x -> ok y -> sortsAfter (comparefn x y) = false -> R x y.
Hypothesis R_trans :
  forall x y z, ok x -> ok y -> ok z -> R x y -> R y z -> R x z.

Lemma insert_sorted (x : A) (l : list A) :
  ok x -> Forall ok l ->
  StronglySorted R l -> StronglySorted R (insert comparefn x l).
Proof.
  intros Hx Hl Hs. induction Hs as [|y l Hs IH Hy]; simpl.
  - repeat constructor.
  - inversion Hl as [|? ? Hoky Hokl]; subst.
    destruct (sortsAfter (comparefn x y)) eqn:E.
    + constructor.
      * apply IH. exact Hokl.
      * rewrite insert_perm. constructor; [|exact Hy].
        apply after_R; assumption.
    + pose proof (keep_R x y Hx Hoky E) as Rxy.
      constructor; [constructor; assumption|].
      constructor; [exact Rxy|].
      rewrite Forall_forall in Hy, Hokl |- *.
      intros z Hz. apply (R_trans x y z); auto.
Qed.

Lemma sort_sorted (l : list A) :
  Forall ok l -> StronglySorted R (sort comparefn l).
Proof.
  induction l as [|x l IH]; simpl; intros Hl.
  - constructor.
  - inversion Hl; subst. apply insert_sorted; auto.
    rewrite sort_perm. assumption.
Qed.
End SortFacts.

Lemma StronglySorted_nth {A} (R : A -> A -> Prop) (l : list A) :
  StronglySorted R l ->
  forall i k a b, (i < k)%nat ->
    nth_error l i = Some a -> nth_error l k = Some b -> R a b.
Proof.
  induction 1 as [|x l Hs IH Hx]; intros i k a b Hik Ha Hb.
  - destruct i; discriminate.
  - destruct k as [|k]; [lia|]. simpl in Hb.
    destruct i as [|i]; simpl in Ha.
    + injection Ha as <-. rewrite Forall_forall in Hx.
      apply Hx. eapply nth_error_In. exact Hb.
    + apply (IH i k); [lia | exact Ha | exact Hb].
Qed.

(* ================================================================== *)
(** * The reconciler                                                   *)
(* ================================================================== *)

Import App.

Section ReconcilerFacts.
Context `{Host}.

Lemma compareJobs_after (x y : JobAlert) :
  dated x -> dated y ->
  sortsAfter (compareJobs x y) = true -> precedes y x.
Proof.
  intros [tx Ex] [ty Ey]. unfold compareJobs, precedes.
  unfold instant in *. rewrite Ex, Ey. simpl.
  destruct (tx =? ty) eqn:E; reflect_bool_in E; simpl;
    intros Hc; reflect_bool_in Hc; exists ty, tx; repeat split; lia.
Qed.

Lemma compareJobs_keep (x y : JobAlert) :
  dated x -> dated y ->
  sortsAfter (compareJobs x y) = false -> precedes x y.
Proof.
  intros [tx Ex] [ty Ey]. unfold compareJobs, precedes.
  unfold instant in *. rewrite Ex, Ey. simpl.
  destruct (tx =? ty) eqn:E; reflect_bool_in E; simpl;
    intros Hc; reflect_bool_in Hc; exists tx, ty; repeat split; lia.
Qed.

Lemma precedes_trans (x y z : JobAlert) :
  precedes x y -> precedes y z -> precedes x z.
Proof.
  intros (tx & ty & Ex & Ey & Hxy) (ty' & tz & Ey' & Ez & Hyz).
  rewrite Ey in Ey'. injection Ey' as <-.
  exists tx, tz. repeat split; try assumption. lia.
Qed.

(** The order invariant needs both records to have an instant. *)
Lemma precedes_dated (a b : JobAlert) : precedes a b -> dated a /\ dated b.
Proof. intros (ta & tb & Ea & Eb & _). split; eexists; eassumption. Qed.

Lemma mergeAndSortJobs_sorted (incoming existing : list JobAlert) :
  Forall dated (incoming ++ existing) ->
  StronglySorted precedes (mergeAndSortJobs incoming existing).
Proof.
  intros Hd. unfold mergeAndSortJobs.
  apply (sort_sorted compareJobs dated precedes).
  - intros x y Hx Hy. apply compareJobs_after; assumption.
  - intros x y Hx Hy. apply compareJobs_keep; assumption.
  - intros x y z _ _ _. apply precedes_trans.
  - exact Hd.
Qed.
End ReconcilerFacts.

(** The invariant does not depend on the sorting algorithm: it holds of
    any arrangement of dated records in which no record is followed, at
    whatever distance, by one the comparator puts before it. *)
Lemma comparator_order_is_invariant `{Host} (out : list JobAlert) :
  Forall dated out ->
  (forall i k a b, (i < k)%nat ->
     nth_error out i = Some a -> nth_error out k = Some b ->
     sortsAfter (compareJobs a b) = false) ->
  forall i k a b, (i < k)%nat ->
    nth_error out i = Some a -> nth_error out k = Some b -> precedes a b.
Proof.
  intros Hd Hsorted i k a b Hik Ha Hb.
  rewrite Forall_forall in Hd.
  apply compareJobs_keep.
  - apply Hd. eapply nth_error_In. exact Ha.
  - apply Hd. eapply nth_error_In. exact Hb.
  - exact (Hsorted i k a b Hik Ha Hb).
Qed.

(** C1 at a batch the code can receive.  One publish date does not
    parse: the comparator answers [NaN] for every pair with the undated
    record, the sort keeps such pairs as they are, and the October record
    with the score 95 stays in front of the fresher November record with
    the score 60, although both have instants. *)
Theorem undated_record_breaks_order :
  let out := mergeAndSortJobs (H := exampleHost)
               [octoberJob] [undatedJob; novemberJob] in
  nth_error out 0 = Some octoberJob
  /\ nth_error out 1 = Some undatedJob
  /\ nth_error out 2 = Some novemberJob
  /\ ~ precedes (H := exampleHost) octoberJob novemberJob
  /\ ~ precedes (H := exampleHost) octoberJob undatedJob
  /\ fresher (H := exampleHost) novemberJob octoberJob
  /\ match_score novemberJob < match_score octoberJob.
Proof.
  cbv zeta. split; [reflexivity|]. split; [reflexivity|].
  split; [reflexivity|]. split; [|split; [|split]].
  - intros (ta & tb & Ea & Eb & Hord).
    vm_compute in Ea, Eb. injection Ea as <-. injection Eb as <-. lia.
  - intros (ta & tb & Ea & Eb & Hord). vm_compute in Eb. discriminate.
  - eexists _, _. split; [vm_compute; reflexivity|].
    split; [vm_compute; reflexivity|]. lia.
  - vm_compute. reflexivity.
Qed.

(** This does not depend on how the sort arranges such records: a
    sequence of two or more records that holds one without an instant
    has a pair that breaks the invariant, in whatever order it is. *)
Lemma undated_defeats_invariant `{Host} (out : list JobAlert) (u : JobAlert) :
  In u out -> ~ dated u -> (2 <= List.length out)%nat ->
  exists i k a b,
    (i < k)%nat /\ nth_error out i = Some a /\ nth_error out k = Some b
    /\ ~ precedes a b.
Proof.
  intros Hin Hu Hlen.
  destruct (In_nth_error _ _ Hin) as [n Hn].
  destruct out as [|a [|b rest]]; simpl in Hlen; try lia.
  destruct n as [|m].
  - injection Hn as ->. exists 0%nat, 1%nat, u, b.
    repeat split; [lia|]. intros Hp. apply precedes_dated in Hp. tauto.
  - exists 0%nat, (S m), a, u.
    repeat split; [lia | exact Hn |].
    intros Hp. apply precedes_dated in Hp. tauto.
Qed.

(** The order of the result on records with instants.  When every
    record of the two inputs has a publish date that parses to an
    instant, any record [a] that comes before a record [b] in the result
    is strictly newer than [b], or has the same instant and a score at
    least as high; and a fresher record comes before an older one
    whatever their scores. *)
Lemma reconciled_order `{Host} (incoming existing : list JobAlert) :
  (forall j, In j (incoming ++ existing) -> dated j) ->
  let out := mergeAndSortJobs incoming existing in
  (forall i k a b, (i < k)%nat ->
     nth_error out i = Some a -> nth_error out k = Some b -> precedes a b)
  /\ (forall i k a b,
        nth_error out i = Some a -> nth_error out k = Some b ->
        fresher a b -> (i < k)%nat).
Proof.
  intros Hd out.
  assert (Hs : StronglySorted precedes out).
  { apply mergeAndSortJobs_sorted. apply Forall_forall. exact Hd. }
  split.
  - apply StronglySorted_nth. exact Hs.
  - intros i k a b Ha Hb (ta & tb & Ea & Eb & Hlt).
    destruct (Nat.lt_trichotomy i k) as [Hik | [Hik | Hik]].
    + exact Hik.
    + subst k. rewrite Ha in Hb. injection Hb as <-.
      rewrite Ea in Eb. injection Eb as <-. lia.
    + pose proof (StronglySorted_nth _ _ Hs k i b a Hik Hb Ha)
        as (tb' & ta' & Eb' & Ea' & Hord).
      rewrite Ea in Ea'. rewrite Eb in Eb'.
      injection Ea' as <-. injection Eb' as <-. lia.
Qed.

Lemma reconciled_order_witness :
  let out := mergeAndSortJobs (H := exampleHost)
               [novemberJob; novemberTopJob] [octoberJob] in
  out = [novemberTopJob; novemberJob; octoberJob]
  /\ precedes (H := exampleHost) novemberJob octoberJob
  /\ precedes (H := exampleHost) novemberTopJob novemberJob.
Proof.
  cbv zeta.
  assert (Hd : forall j, In j ([novemberJob; novemberTopJob] ++ [octoberJob]) ->
                         dated (H := exampleHost) j).
  { intros j [<- | [<- | [<- | []]]]; eexists; vm_compute; reflexivity. }
  pose proof (reconciled_order (H := exampleHost)
                [novemberJob; novemberTopJob] [octoberJob] Hd) as [Hord _].
  split; [reflexivity|]. split.
  - apply (Hord 1%nat 2%nat); [lia | reflexivity | reflexivity].
  - apply (Hord 0%nat 1%nat); [lia | reflexivity | reflexivity].
Defined.

(** C2.  For any two inputs, empty ones included, the result is a
    rearrangement of the incoming records followed by the existing ones:
    it has [m + n] records, every input record is in it as it was, as
    often as it occurs in the inputs, and nothing else is. *)
Theorem reconciled_union `{Host} (incoming existing : list JobAlert) :
  let out := mergeAndSortJobs incoming existing in
  Permutation out (incoming ++ existing)
  /\ List.length out = (List.length incoming + List.length existing)%nat
  /\ (forall j, In j out <-> In j incoming \/ In j existing)
  /\ mergeAndSortJobs [] [] = [].
Proof.
  intros out.
  assert (Hp : Permutation out (incoming ++ existing))
    by apply sort_perm.
  split; [exact Hp|]. split; [|split].
  - rewrite (Permutation_length Hp). apply length_app.
  - intros j. rewrite <- in_app_iff. split; apply Permutation_in.
    + exact Hp.
    + symmetry. exact Hp.
  - reflexivity.
Qed.

(** The eighth testable property: an empty batch leaves the membership of
    the collection as it was. *)
Lemma reconciled_empty_batch `{Host} (existing : list JobAlert) :
  Permutation (mergeAndSortJobs [] existing) existing.
Proof. apply (sort_perm compareJobs existing). Qed.

(* ================================================================== *)
(** * The status log                                                   *)
(* ================================================================== *)

(** C7.  On a log of at most 50 lines, [addLog] puts the new line first
    and keeps the 49 lines before it: the result has at most 50 lines
    and holds the new one, and the lines behind it are the previous log
    without what it drops, which is nothing when the log had fewer than
    50 lines and its last, oldest line when it had 50. *)
Theorem log_keeps_latest_50 `{Host} (message : str) (w : World) :
  (List.length (logs (ui w)) <= 50)%nat ->
  let w' := run (addLog message) w in
  let entry := lit "[" ++ localeTime (clockReads w) ++ lit "] " ++ message in
  (List.length (logs (ui w')) <= 50)%nat
  /\ logs (ui w') = entry :: firstn 49 (logs (ui w))
  /\ In entry (logs (ui w'))
  /\ exists dropped,
       logs (ui w) = tl (logs (ui w')) ++ dropped
       /\ ((List.length (logs (ui w)) < 50)%nat -> dropped = [])
       /\ ((List.length (logs (ui w)) = 50)%nat ->
           dropped = [last (logs (ui w)) []]).
Proof.
  intros Hlen w' entry.
  assert (E : logs (ui w') = entry :: firstn 49 (logs (ui w))) by reflexivity.
  split; [|split; [exact E|split]].
  - rewrite E.
    change (S (List.length (firstn 49 (logs (ui w)))) <= 50)%nat.
    pose proof (firstn_le_length 49 (logs (ui w))). lia.
  - rewrite E. left. reflexivity.
  - exists (skipn 49 (logs (ui w))). rewrite E.
    change (tl (entry :: firstn 49 (logs (ui w))))
      with (firstn 49 (logs (ui w))).
    split; [symmetry; apply firstn_skipn|]. split.
    + intros Hlt. apply skipn_all2. lia.
    + intros H50.
      pose proof (firstn_skipn 49 (logs (ui w))) as Hsplit.
      pose proof (length_skipn 49 (logs (ui w))) as Hsk.
      destruct (skipn 49 (logs (ui w))) as [|x [|y r]] eqn:Es;
        simpl in Hsk; try lia.
      rewrite <- Hsplit at 1. rewrite last_last. reflexivity.
Qed.

Lemma log_keeps_latest_50_witness :
  let w := worldWith [] (lit "") (repeat (lit "[09:29:59] earlier") 50) in
  let w' := run (addLog (H := exampleHost) (lit "Scan complete.")) w in
  (List.length (logs (ui w')) <= 50)%nat
  /\ hd [] (logs (ui w')) = lit "[09:30:00] Scan complete.".
Proof.
  cbv zeta.
  pose proof (log_keeps_latest_50 (H := exampleHost) (lit "Scan complete.")
                (worldWith [] (lit "") (repeat (lit "[09:29:59] earlier") 50)))
    as Hlog.
  cbv zeta in Hlog.
  destruct Hlog as (Hlen & Hlogs & _).
  - vm_compute. lia.
  - split; [exact Hlen|]. rewrite Hlogs. reflexivity.
Defined.

(* ================================================================== *)
(** * The service                                                      *)
(* ================================================================== *)

Import GeminiService.

(** A failure of the call itself is thrown on to the caller. *)
Lemma invocation_failure_propagates `{Host}
      (n : nat) (mode : Mode) (inputText : option str) (error : exn) :
  missing API_KEY = false ->
  generateContent n mode inputText = Throw error ->
  scanJobs n mode inputText = Throw error.
Proof. intros Hk Hg. unfold scanJobs. rewrite Hk, Hg. reflexivity. Qed.

(** A missing text and the empty text give the empty result; the parser
    is not consulted. *)
Lemma no_text_is_empty_result `{Host}
      (n : nat) (mode : Mode) (inputText : option str) (text : option str) :
  missing API_KEY = false ->
  generateContent n mode inputText = Normal text ->
  missing text = true ->
  scanJobs n mode inputText = Normal [].
Proof.
  intros Hk Hg Hm. unfold scanJobs. rewrite Hk, Hg.
  destruct text as [t|]; [|reflexivity].
  simpl in Hm. rewrite Hm. reflexivity.
Qed.

(** The empty text is not valid JSON, and [scanJobs] does not treat it as
    a failure: it returns the empty list. *)
Lemma empty_text_is_not_fatal :
  generateContent (Host := silentHost) 0 SIMULATE None = Normal (Some (lit ""))
  /\ JSON_parse (Host := silentHost) (lit "") = Throw Stub.SyntaxError
  /\ scanJobs (H := silentHost) 0 SIMULATE None = Normal [].
Proof. repeat split; reflexivity. Qed.

(** C9, amended.  When the collaborator returns a non-empty text that is
    not valid JSON, [scanJobs] throws the error of the parser on to its
    caller, as it does with a failure of the call, and returns no
    records; when the response has no text or the empty text, [scanJobs]
    returns the empty list and throws nothing. *)
Theorem malformed_text_is_fatal `{Host}
        (n : nat) (mode : Mode) (inputText : option str)
        (text : option str) :
  missing API_KEY = false ->
  generateContent n mode inputText = Normal text ->
  (forall t error,
      text = Some t -> t <> [] -> JSON_parse t = Throw error ->
      scanJobs n mode inputText = Throw error
      /\ forall records, scanJobs n mode inputText <> Normal records)
  /\ (missing text = true -> scanJobs n mode inputText = Normal []).
Proof.
  intros Hk Hg. split.
  - intros t error -> Hne Hp.
    assert (E : scanJobs n mode inputText = Throw error).
    { unfold scanJobs. rewrite Hk, Hg.
      destruct t as [|c t]; [congruence|]. simpl. rewrite Hp. reflexivity. }
    split; [exact E|]. intros records. rewrite E. discriminate.
  - intros Hm. unfold scanJobs. rewrite Hk, Hg.
    destruct text as [t|]; [|reflexivity].
    simpl in Hm. rewrite Hm. reflexivity.
Qed.

Lemma malformed_text_is_fatal_witness :
  scanJobs (H := garbledHost) 0 SIMULATE None = Throw Stub.SyntaxError
  /\ scanJobs (H := silentHost) 0 SIMULATE None = Normal [].
Proof.
  split.
  - refine (proj1 (proj1 (malformed_text_is_fatal (H := garbledHost)
                            0 SIMULATE None (Some (lit "Sorry, no jobs.")) _ _)
                         (lit "Sorry, no jobs.") Stub.SyntaxError _ _ _)).
    + reflexivity.
    + reflexivity.
    + reflexivity.
    + discriminate.
    + reflexivity.
  - refine (proj2 (malformed_text_is_fatal (H := silentHost)
                     0 SIMULATE None (Some (lit "")) _ _) _).
    + reflexivity.
    + reflexivity.
    + reflexivity.
Defined.

(* ================================================================== *)
(** * The handlers                                                     *)
(* ================================================================== *)

Lemma trim_blank (s : str) : forallb isWhiteSpace s = true -> trim s = [].
Proof.
  intros Hs. unfold trim.
  assert (E : trimStart s = []).
  { induction s as [|c s IH]; simpl in *; [reflexivity|].
    apply andb_true_iff in Hs as [-> Hs]. exact (IH Hs). }
  rewrite E. reflexivity.
Qed.

(** C10.  With an analysis text that is empty or all white space,
    [handleAnalyzeText] returns at once and leaves everything as it was:
    the jobs, the log, the busy flag and the rest of the state, no
    invocation of the collaborator, no clock reading, no alert, and
    nothing thrown. *)
Theorem blank_text_is_noop `{Host} (w : World) :
  forallb isWhiteSpace (analyzeText (ui w)) = true ->
  handleAnalyzeText w = (tt, w).
Proof.
  intros Hb. unfold handleAnalyzeText, seq, getAnalyzeText.
  rewrite (trim_blank _ Hb). reflexivity.
Qed.

Lemma blank_text_is_noop_witness :
  let w := worldWith [octoberJob] (lit "   ") [lit "[09:29:59] earlier"] in
  handleAnalyzeText (H := exampleHost) w = (tt, w).
Proof.
  cbv zeta.
  apply (blank_text_is_noop (H := exampleHost)
           (worldWith [octoberJob] (lit "   ") [lit "[09:29:59] earlier"])).
  reflexivity.
Defined.

(** Unfolds the handlers down to the primitive updates of the world. *)
Ltac step_handler :=
  cbv beta iota zeta delta
    [run handler handleSimulateScan handleAnalyzeText seq ret modify
     setIsScanning setJobs setLogs setAnalyzeText setActiveTab addLog
     currentTime awaitScanJobs getAnalyzeText App.alert announce request
     outcomeOf failureLine fst snd
     ui clockReads invocations alerts
     jobs logs isScanning activeTab analyzeText].

Ltac step_handler_in H :=
  cbv beta iota zeta delta
    [run handler handleSimulateScan handleAnalyzeText seq ret modify
     setIsScanning setJobs setLogs setAnalyzeText setActiveTab addLog
     currentTime awaitScanJobs getAnalyzeText App.alert announce request
     outcomeOf failureLine fst snd
     ui clockReads invocations alerts
     jobs logs isScanning activeTab analyzeText] in H.

(** C8.  When the invocation made by a handler throws, whatever it
    throws, the handler finishes with the job collection as it was,
    exactly one new log line, which carries the message of the error
    (or "Unknown error") and sits on top of the log as it stood when the
    call was made, exactly one invocation recorded, so no retry, and the
    busy flag cleared.  The handler is a total function of the world:
    nothing is thrown out of it. *)
Theorem failed_invocation_reported `{Host}
        (t : Trigger) (w : World) (error : exn) :
  reachesCall t w ->
  outcomeOf t w = Throw error ->
  let before := run (announce t) w in
  let w' := run (handler t) w in
  jobs (ui w') = jobs (ui w)
  /\ logs (ui w')
     = failureLine t (clockReads before) error :: firstn 49 (logs (ui before))
  /\ invocations w' = invocations w ++ [request t w]
  /\ isScanning (ui w') = false
  /\ alerts w' = alerts w
  /\ activeTab (ui w') = activeTab (ui w)
  /\ analyzeText (ui w') = analyzeText (ui w).
Proof.
  destruct w as [[held busy tab text lines] reads calls shown].
  destruct t; intros Hreach Hout before w'; subst before w';
    simpl in Hreach; step_handler_in Hout.
  - unfold run, handler, handleSimulateScan. rewrite Hreach.
    step_handler. rewrite Hout. step_handler.
    repeat split; reflexivity.
  - assert (Ef : falsy (trim text) = false).
    { destruct (trim text); [congruence | reflexivity]. }
    step_handler. rewrite Ef. step_handler. rewrite Hout. step_handler.
    repeat split; reflexivity.
Qed.

Lemma failed_invocation_reported_witness :
  let w := worldWith [octoberJob] (lit "Data Engineer, Lund") [] in
  let w' := run (handler (H := failingHost) Analysis) w in
  jobs (ui w') = [octoberJob]
  /\ logs (ui w') = [lit "[09:30:01] ERR: Analysis failed. quota exceeded";
                     lit "[09:30:00] Analyzing raw job description..."]
  /\ invocations w' = [(ANALYZE, Some (lit "Data Engineer, Lund"))].
Proof.
  cbv zeta.
  pose proof (failed_invocation_reported (H := failingHost) Analysis
                (worldWith [octoberJob] (lit "Data Engineer, Lund") [])
                (ErrorObj (lit "Error") (lit "quota exceeded")))
    as Hrep.
  cbv zeta in Hrep.
  destruct Hrep as (Hjobs & Hlogs & Hcalls & _).
  - vm_compute. discriminate.
  - reflexivity.
  - split; [exact Hjobs|]. split; [|exact Hcalls].
    rewrite Hlogs. reflexivity.
Defined.

(** The scan handler on the same failure, and on a response that is no
    JSON: the collection is kept and one line reports the error. *)
Example failed_scan_example :
  let w := worldWith [octoberJob] (lit "") [] in
  let w' := run (handler (H := garbledHost) Scan) w in
  jobs (ui w') = [octoberJob]
  /\ hd [] (logs (ui w'))
     = lit "[09:30:02] ERR: Scan failed. Unexpected token in JSON"
  /\ List.length (logs (ui w')) = 3%nat
  /\ List.length (invocations w') = 1%nat
  /\ isScanning (ui w') = false.
Proof. repeat split; reflexivity. Qed.

(** The empty result is no error but is logged, unlike the blank text:
    the handler adds the line that the role was rejected. *)
Example empty_result_is_logged :
  let w := worldWith [octoberJob] (lit "Chef, Oslo") [] in
  let w' := run (handler (H := silentHost) Analysis) w in
  jobs (ui w') = [octoberJob]
  /\ hd [] (logs (ui w'))
     = lit "[09:30:01] Analysis complete. Role rejected (Score < 60 or Non-Sweden/Old)."
  /\ List.length (invocations w') = 1%nat.
Proof. repeat split; reflexivity. Qed.

(* ================================================================== *)
(** * Further properties of the job card                               *)
(* ================================================================== *)

Lemma percent_escaped (o : N) : forallb escapedChar (percent o) = true.
Proof.
  unfold percent, escapedChar. simpl.
  rewrite !hexDigit_unreserved by apply land_15_lt. reflexivity.
Qed.

Lemma percentAll_escaped (os : list N) :
  forallb escapedChar (percentAll os) = true.
Proof.
  induction os as [|o os IH].
  - reflexivity.
  - change (percentAll (o :: os)) with (percent o ++ percentAll os).
    rewrite forallb_app, IH, percent_escaped. reflexivity.
Qed.

Lemma encodeURIComponent_escaped (s q : str) :
  encodeURIComponent s = Normal q -> forallb escapedChar q = true.
Proof.
  revert q. induction s as [|c rest IH1 IH2] using str_pair_ind; intros q.
  - simpl. intros [= <-]. reflexivity.
  - simpl. destruct (uriUnreserved c) eqn:Eu.
    + destruct (encodeURIComponent rest) as [r|] eqn:Er; simpl; [|discriminate].
      intros [= <-]. simpl. unfold escapedChar at 1. rewrite Eu.
      exact (IH1 r eq_refl).
    + destruct (isTrailSurrogate c); [discriminate|].
      destruct (isLeadSurrogate c).
      * destruct rest as [|c2 rest']; [discriminate|].
        destruct (isTrailSurrogate c2); [|discriminate].
        destruct (encodeURIComponent rest') as [r|] eqn:Er; simpl; [|discriminate].
        intros [= <-]. rewrite forallb_app, percentAll_escaped.
        exact (IH2 c2 rest' eq_refl r Er).
      * destruct (encodeURIComponent rest) as [r|] eqn:Er; simpl; [|discriminate].
        intros [= <-]. rewrite forallb_app, percentAll_escaped.
        exact (IH1 r eq_refl).
Qed.

Lemma surrogate_not_unreserved (c : N) :
  isTrailSurrogate c = true \/ isLeadSurrogate c = true ->
  uriUnreserved c = false.
Proof.
  intros Hs. destruct (uriUnreserved c) eqn:Eu; [|reflexivity].
  exfalso. unfold uriUnreserved in Eu.
  unfold isTrailSurrogate, isLeadSurrogate in Hs.
  reflect_bool_in Eu. reflect_bool_in Hs. lia.
Qed.

Lemma isWellFormed_app_inv (a b : str) :
  isWellFormed (a ++ b) = true ->
  isWellFormed a = true -> isWellFormed b = true.
Proof.
  induction a as [|c rest IH1 IH2] using str_pair_ind.
  - intros Hab _. exact Hab.
  - simpl. destruct (isTrailSurrogate c); [discriminate|].
    destruct (isLeadSurrogate c).
    + destruct rest as [|c2 rest']; [discriminate|]. simpl.
      intros Hab Ha.
      apply andb_true_iff in Hab as [_ Hab].
      apply andb_true_iff in Ha as [_ Ha].
      exact (IH2 c2 rest' eq_refl Hab Ha).
    + exact IH1.
Qed.

(** A string that is not well formed stays so when text that does not
    begin with a trail surrogate is put behind it. *)
Lemma isWellFormed_app_left (a b : str) :
  isWellFormed a = false ->
  match b with c :: _ => isTrailSurrogate c = false | [] => True end ->
  isWellFormed (a ++ b) = false.
Proof.
  intros Ha Hb. revert Ha.
  induction a as [|c rest IH1 IH2] using str_pair_ind.
  - discriminate.
  - simpl. destruct (isTrailSurrogate c); [reflexivity|].
    destruct (isLeadSurrogate c).
    + destruct rest as [|c2 rest']; simpl.
      * intros _. destruct b as [|c2 b']; [reflexivity|]. rewrite Hb. reflexivity.
      * destruct (isTrailSurrogate c2); simpl; [|reflexivity].
        exact (IH2 c2 rest' eq_refl).
    + exact IH1.
Qed.

(** The text of the query is well formed exactly when the title and the
    company are. *)
Lemma query_wellFormed (title comp : str) :
  isWellFormed (title ++ lit " " ++ comp)
  = isWellFormed title && isWellFormed comp.
Proof.
  destruct (isWellFormed title) eqn:Wt.
  - destruct (isWellFormed comp) eqn:Wc; cbv [andb].
    + apply isWellFormed_app; [exact Wt|].
      apply isWellFormed_app; [reflexivity | exact Wc].
    + destruct (isWellFormed (title ++ lit " " ++ comp)) eqn:W; [|reflexivity].
      pose proof (isWellFormed_app_inv _ _ W Wt) as W'.
      change (isWellFormed comp = true) in W'. congruence.
  - cbv [andb]. apply isWellFormed_app_left; [exact Wt | reflexivity].
Qed.

Lemma encodeURIComponent_app (a b : str) :
  isWellFormed a = true ->
  encodeURIComponent (a ++ b)
  = bind (encodeURIComponent a)
         (fun x => bind (encodeURIComponent b) (fun y => Normal (x ++ y))).
Proof.
  induction a as [|c rest IH1 IH2] using str_pair_ind.
  - intros _. simpl. destruct (encodeURIComponent b); reflexivity.
  - simpl. destruct (isTrailSurrogate c) eqn:Et; [discriminate|].
    destruct (isLeadSurrogate c) eqn:El.
    + rewrite (surrogate_not_unreserved c) by (right; exact El).
      destruct rest as [|c2 rest']; [discriminate|]. simpl.
      intros Hw. apply andb_true_iff in Hw as [Ht Hw]. rewrite Ht.
      rewrite (IH2 c2 rest' eq_refl Hw).
      destruct (encodeURIComponent rest'); simpl; [|reflexivity].
      destruct (encodeURIComponent b); simpl; [|reflexivity].
      rewrite app_assoc. reflexivity.
    + intros Hw. rewrite (IH1 Hw).
      destruct (uriUnreserved c);
        (destruct (encodeURIComponent rest); simpl; [|reflexivity]);
        (destruct (encodeURIComponent b); simpl; [|reflexivity]).
      * reflexivity.
      * rewrite app_assoc. reflexivity.
Qed.

Lemma startsWith_spec (s p : str) :
  startsWith s p = true <-> exists post, s = p ++ post.
Proof.
  revert s. induction p as [|c p IH]; intros s.
  - split; [intros _; exists s; reflexivity | intros _; destruct s; reflexivity].
  - destruct s as [|d s]; simpl.
    + split; [discriminate | intros [post E]; discriminate].
    + rewrite andb_true_iff, N.eqb_eq, IH. split.
      * intros [-> [post ->]]. exists post. reflexivity.
      * intros [post E]. injection E as -> ->. split; [reflexivity | eauto].
Qed.

(** [includes] finds an occurrence at any position. *)
Lemma includes_spec (s search : str) :
  includes s search = true <-> exists pre post, s = pre ++ search ++ post.
Proof.
  induction s as [|c s IH].
  - change (includes [] search) with (startsWith [] search || false).
    rewrite orb_false_r, startsWith_spec. split.
    + intros [post E]. exists [], post. exact E.
    + intros (pre & post & E). destruct pre as [|d pre]; [|discriminate].
      exists post. exact E.
  - change (includes (c :: s) search)
      with (startsWith (c :: s) search || includes s search).
    rewrite orb_true_iff, startsWith_spec, IH. split.
    + intros [[post E] | (pre & post & E)].
      * exists [], post. exact E.
      * exists (c :: pre), post. simpl. rewrite E. reflexivity.
    + intros (pre & post & E). destruct pre as [|d pre].
      * left. exists post. exact E.
      * right. injection E as _ E. exists pre, post. exact E.
Qed.

Section ResolverMore.
Context `{Host}.

Lemma location_wellFormed (job : JobAlert) :
  isWellFormed (or_else (location job) (lit "Sweden"))
  = isWellFormed (location job).
Proof. destruct (location job); reflexivity. Qed.

(** The query is the encoded title, ["%20"], and the encoded company. *)
Lemma query_encoding (title comp : str) :
  encodeURIComponent (title ++ lit " " ++ comp)
  = bind (encodeURIComponent title)
         (fun t => bind (encodeURIComponent comp)
                        (fun c => Normal (t ++ lit "%20" ++ c))).
Proof.
  destruct (isWellFormed title) eqn:Wt.
  - rewrite (encodeURIComponent_app _ _ Wt).
    destruct (encodeURIComponent title) as [t|]; [|reflexivity].
    cbv [bind]. change (lit " " ++ comp) with (32%N :: comp).
    change (encodeURIComponent (32%N :: comp))
      with (bind (encodeURIComponent comp)
                 (fun r => Normal (percentAll (utf8 32) ++ r))).
    destruct (encodeURIComponent comp) as [c|]; reflexivity.
  - rewrite (encodeURIComponent_throws title Wt).
    apply encodeURIComponent_throws.
    apply isWellFormed_app_left; [exact Wt | reflexivity].
Qed.

Lemma passthrough (job : JobAlert) :
  ~ fallbackTriggers job -> handleApply job = Normal (apply_url job).
Proof.
  intros Hn. unfold handleApply.
  destruct (falsy (apply_url job) || (List.length (apply_url job) <? 5)%nat
            || includes (apply_url job) (lit "example.com")) eqn:Ec.
  - exfalso. apply Hn. apply fallback_condition. exact Ec.
  - reflexivity.
Qed.

Lemma fallbackTriggers_dec (job : JobAlert) :
  fallbackTriggers job \/ ~ fallbackTriggers job.
Proof.
  destruct (falsy (apply_url job) || (List.length (apply_url job) <? 5)%nat
            || includes (apply_url job) (lit "example.com")) eqn:Ec.
  - left. apply fallback_condition. exact Ec.
  - right. intros Hf. apply fallback_condition in Hf. congruence.
Qed.
End ResolverMore.

(** X1.  When the fallback triggers, the handler throws exactly when the
    title, the company or the location is not a well-formed string, and
    what it throws then is the URIError of [encodeURIComponent]; this
    holds in every branch, the Platsbanken one included, which does not
    use the location. *)
Theorem fallback_throws_iff `{Host} (job : JobAlert) (e : exn) :
  fallbackTriggers job ->
  (handleApply job = Throw e
   <-> e = URIError
       /\ (isWellFormed (job_title job) = false
           \/ isWellFormed (company job) = false
           \/ isWellFormed (location job) = false)).
Proof.
  intros Hf.
  pose proof (query_wellFormed (job_title job) (company job)) as Wq.
  pose proof (location_wellFormed job) as Wl.
  destruct (isWellFormed (job_title job ++ lit " " ++ company job)) eqn:Eq.
  - destruct (isWellFormed (or_else (location job) (lit "Sweden"))) eqn:El.
    + destruct (encodeURIComponent_defined _ Eq) as [q Hq].
      destruct (encodeURIComponent_defined _ El) as [loc Hloc].
      rewrite (handleApply_fallback job q loc Hf Hq Hloc).
      symmetry in Wq. apply andb_true_iff in Wq as [Wt Wc].
      split; [discriminate|].
      intros [_ [E | [E | E]]]; congruence.
    + rewrite (fallback_throws job Hf (or_intror El)). split.
      * intros [= <-]. split; [reflexivity|]. right; right. congruence.
      * intros [-> _]. reflexivity.
  - rewrite (fallback_throws job Hf (or_introl Eq)). split.
    + intros [= <-]. split; [reflexivity|].
      symmetry in Wq. apply andb_false_iff in Wq. tauto.
    + intros [-> _]. reflexivity.
Qed.

Lemma fallback_throws_iff_witness :
  handleApply (H := exampleHost)
    (Stub.job "BI Developer" "Acme" "" "2026-11-01T08:00:00Z" 80
       (lit "Platsbanken") (lit ""))
  <> Throw URIError.
Proof.
  intros E.
  apply (fallback_throws_iff (H := exampleHost)) in E.
  - destruct E as [_ [E | [E | E]]]; discriminate.
  - left. reflexivity.
Defined.

(** X2.  When the fallback triggers and the handler returns, the URL is
    one of the four fixed searches.  Its query is the encoded title,
    "%20" and the encoded company, its location is the encoded location
    of the record, or "Sweden", and both are written with unreserved
    characters and percent signs only: no field of the record can change
    the host or the path, or add a parameter. *)
Theorem fallback_opens_fixed_search `{Host} (job : JobAlert) (url : str) :
  fallbackTriggers job ->
  handleApply job = Normal url ->
  exists t c loc,
    encodeURIComponent (job_title job) = Normal t
    /\ encodeURIComponent (company job) = Normal c
    /\ encodeURIComponent (or_else (location job) (lit "Sweden")) = Normal loc
    /\ searchUrl (t ++ lit "%20" ++ c) loc url
    /\ forallb escapedChar (t ++ lit "%20" ++ c) = true
    /\ forallb escapedChar loc = true.
Proof.
  intros Hf Hr.
  destruct (encodeURIComponent (job_title job ++ lit " " ++ company job))
    as [q|] eqn:Hq.
  - destruct (encodeURIComponent (or_else (location job) (lit "Sweden")))
      as [loc|] eqn:Hloc.
    + pose proof Hq as Hq'. rewrite query_encoding in Hq'.
      destruct (encodeURIComponent (job_title job)) as [t|]; [|discriminate].
      destruct (encodeURIComponent (company job)) as [c|]; [|discriminate].
      injection Hq' as <-.
      exists t, c, loc. repeat split.
      * rewrite (handleApply_fallback job _ loc Hf Hq Hloc) in Hr.
        cbv zeta in Hr. injection Hr as <-. unfold searchUrl.
        destruct (includes _ (lit "linkedin")); [tauto|].
        destruct (includes _ arbetsformedlingen || includes _ (lit "platsbanken"));
          [tauto|].
        destruct (includes _ (lit "indeed")); tauto.
      * exact (encodeURIComponent_escaped _ _ Hq).
      * exact (encodeURIComponent_escaped _ _ Hloc).
    + exfalso. apply fallback_condition in Hf.
      unfold handleApply in Hr. rewrite Hf, Hq, Hloc in Hr. discriminate.
  - exfalso. apply fallback_condition in Hf.
    unfold handleApply in Hr. rewrite Hf, Hq in Hr. discriminate.
Qed.

Lemma fallback_opens_fixed_search_witness :
  exists t c loc,
    encodeURIComponent (job_title unknownBoardJob) = Normal t
    /\ encodeURIComponent (company unknownBoardJob) = Normal c
    /\ encodeURIComponent (or_else (location unknownBoardJob) (lit "Sweden"))
       = Normal loc
    /\ searchUrl (t ++ lit "%20" ++ c) loc
         (lit "https://www.google.com/search?q=BI%20Developer%20Acme+job+Sweden")
    /\ forallb escapedChar (t ++ lit "%20" ++ c) = true
    /\ forallb escapedChar loc = true.
Proof.
  apply (fallback_opens_fixed_search (H := exampleHost) unknownBoardJob).
  - right; right. reflexivity.
  - reflexivity.
Defined.

(** X3.  The supplied link is opened for every record that carries it
    exactly when it has at least 5 code units and "example.com" occurs
    at no position in it; a link that mentions the placeholder host
    anywhere, in its query for instance, is never trusted. *)
Theorem trust_test_characterised `{Host} (link : str) :
  (forall job, apply_url job = link -> handleApply job = Normal link)
  <-> (5 <= List.length link)%nat
      /\ forall pre post, link <> pre ++ lit "example.com" ++ post.
Proof.
  split.
  - intros Hall.
    set (probe := {| job_title := [55296%N]; company := []; primary_role := [];
                     location := []; employment_type := EmploymentUnknown;
                     seniority := SeniorityUnknown; publish_date_utc := [];
                     job_age_hours := 0; match_score := 0; key_skills := [];
                     source := []; apply_url := link;
                     alert_message_en := []; alert_message_sv := [] |}).
    destruct (fallbackTriggers_dec probe) as [Hf | Hn].
    + exfalso. pose proof (Hall probe eq_refl) as Hr.
      rewrite (fallback_throws probe Hf (or_introl eq_refl)) in Hr.
      discriminate.
    + unfold fallbackTriggers in Hn.
      change (apply_url probe) with link in Hn. split.
      * destruct (Nat.lt_ge_cases (List.length link) 5) as [Hlt | Hge];
          [exfalso; apply Hn; right; left; exact Hlt | exact Hge].
      * intros pre post E. apply Hn. right; right.
        apply includes_spec. eauto.
  - intros [Hlen Hno] job Ej. rewrite <- Ej. apply passthrough.
    unfold fallbackTriggers. rewrite Ej. intros [E | [E | E]].
    + rewrite E in Hlen. simpl in Hlen. lia.
    + lia.
    + apply includes_spec in E as (pre & post & E). exact (Hno pre post E).
Qed.

(** A link that mentions the placeholder host in its query is replaced
    by a search. *)
Example referrer_link_not_trusted :
  handleApply (H := exampleHost) referrerLinkJob
  = Normal (lit "https://se.indeed.com/jobs?q=Data%20Engineer%20Acme&l=Lund").
Proof. reflexivity. Qed.

(** X4.  For an age that is a double below [24 * 2^52] hours, the badge
    that shows days is given only when the age is above 48 hours, and
    the number [d] it shows is at least 2 and is the number of whole
    days of the age: [24 d <= hours < 24 (d + 1)]. *)
Theorem aged_badge_days (hours : Q) (d : Z) :
  isDouble hours ->
  (hours < inject_Z (24 * 2 ^ 52))%Q ->
  getAgeBadge hours = agedBadge d ->
  (48 # 1 < hours)%Q /\ 2 <= d
  /\ (inject_Z d * (24 # 1) <= hours)%Q
  /\ (hours < (inject_Z d + 1) * (24 # 1))%Q.
Proof.
  intros Hd Hhi. unfold getAgeBadge.
  destruct (Qle_bool hours (24 # 1)) eqn:E24; [discriminate|].
  destruct (Qle_bool hours (48 # 1)) eqn:E48; [discriminate|].
  intros E.
  assert (H48 : (48 # 1 < hours)%Q).
  { apply Qnot_le_lt. intros Hle. apply Qle_bool_iff in Hle. congruence. }
  assert (Ed : d = Qfloor (hours / (24 # 1))).
  { rewrite <- (quotient_floor hours Hd H48 Hhi).
    injection E as E. symmetry. exact E. }
  clear E. rewrite Ed. clear Ed d.
  pose proof (Qfloor_le (hours / (24 # 1))) as Hlo.
  pose proof (Qlt_floor (hours / (24 # 1))) as Hup.
  rewrite inject_Z_plus in Hup.
  assert (Hdiv : (hours / (24 # 1) * (24 # 1) == hours)%Q)
    by (field; discriminate).
  split; [exact H48|]. split; [|split].
  - assert (H2 : Qfloor (inject_Z 2) <= Qfloor (hours / (24 # 1))).
    { apply Qfloor_resp_le. apply Qle_shift_div_l; [reflexivity|].
      apply Qlt_le_weak. exact H48. }
    rewrite Qfloor_Z in H2. exact H2.
  - change (inject_Z 1) with 1%Q in Hup.
    set (x := (hours / (24 # 1))%Q) in *. lra.
  - change (inject_Z 1) with 1%Q in Hup.
    set (x := (hours / (24 # 1))%Q) in *. lra.
Qed.

Lemma aged_badge_days_witness :
  (48 # 1 < 100 # 1)%Q /\ 2 <= 4
  /\ (inject_Z 4 * (24 # 1) <= 100 # 1)%Q
  /\ (100 # 1 < (inject_Z 4 + 1) * (24 # 1))%Q.
Proof.
  apply (aged_badge_days (100 # 1) 4).
  - exists 100, 0. split; [reflexivity|]. split; [lia | reflexivity].
  - reflexivity.
  - vm_compute. reflexivity.
Defined.

(** X5.  The score class never goes down when the score goes up: with
    "high" above "medium" above "low", a higher score has a class at
    least as high. *)
Theorem score_class_monotone (score score' : Z) :
  score <= score' ->
  tierRank (getScoreColor score) <= tierRank (getScoreColor score').
Proof.
  intros Hle. unfold getScoreColor.
  destruct (90 <=? score) eqn:A; destruct (90 <=? score') eqn:A';
    destruct (75 <=? score) eqn:B; destruct (75 <=? score') eqn:B';
    reflect_bool_in A; reflect_bool_in A'; reflect_bool_in B;
    reflect_bool_in B'; try lia; vm_compute; discriminate.
Qed.

Lemma score_class_monotone_witness :
  tierRank (getScoreColor 74) <= tierRank (getScoreColor 75)
  /\ tierRank (getScoreColor 75) <= tierRank (getScoreColor 90).
Proof.
  split; apply score_class_monotone; lia.
Defined.


(* ================================================================== *)
(** * Further properties of the reconciler                             *)
(* ================================================================== *)

Section SortMore.
Context {A : Type} (comparefn : A -> A -> number).

Lemma insert_filter (P : A -> bool) (x : A) (l : list A) :
  (forall y, P x = true -> P y = true -> sortsAfter (comparefn x y) = false) ->
  filter P (insert comparefn x l) = filter P (x :: l).
Proof.
  intros Hties. induction l as [|y l IH].
  - reflexivity.
  - simpl insert. destruct (sortsAfter (comparefn x y)) eqn:E.
    + simpl filter at 1. rewrite IH. simpl.
      destruct (P y) eqn:Py; [|reflexivity].
      destruct (P x) eqn:Px; [|reflexivity].
      rewrite (Hties y eq_refl Py) in E. discriminate.
    + reflexivity.
Qed.

Lemma sort_filter (P : A -> bool) (l : list A) :
  (forall x y, P x = true -> P y = true -> sortsAfter (comparefn x y) = false) ->
  filter P (sort comparefn l) = filter P l.
Proof.
  intros Hties. induction l as [|x l IH].
  - reflexivity.
  - simpl sort. rewrite insert_filter by (intros y; apply Hties).
    simpl. rewrite IH. reflexivity.
Qed.

Lemma sort_fixed (l : list A) :
  StronglySorted (fun x y => sortsAfter (comparefn x y) = false) l ->
  sort comparefn l = l.
Proof.
  induction 1 as [|x l Hs IH Hx].
  - reflexivity.
  - simpl. rewrite IH. destruct l as [|y l]; [reflexivity|].
    simpl. inversion Hx as [|? ? Hxy _]; subst. rewrite Hxy. reflexivity.
Qed.

Lemma sort_app (front back : list A) :
  sort comparefn (front ++ back)
  = fold_right (insert comparefn) (sort comparefn back) front.
Proof.
  induction front as [|x front IH]; simpl; [reflexivity|].
  rewrite IH. reflexivity.
Qed.
End SortMore.

Lemma StronglySorted_weaken {A} (R S : A -> A -> Prop) (l : list A) :
  (forall x y, R x y -> S x y) -> StronglySorted R l -> StronglySorted S l.
Proof.
  intros Hsub. induction 1 as [|x l Hs IH Hx]; constructor.
  - exact IH.
  - rewrite Forall_forall in Hx |- *. auto.
Qed.

Section ReconcilerMore.
Context `{Host}.

Lemma precedes_keeps (x y : JobAlert) :
  precedes x y -> sortsAfter (compareJobs x y) = false.
Proof.
  intros (tx & ty & Ex & Ey & Hord). unfold compareJobs.
  unfold instant in *. rewrite Ex, Ey. simpl.
  destruct (tx =? ty) eqn:E; reflect_bool_in E; simpl; reflect_bool; lia.
Qed.

Lemma sameKeys_no_swap (a x y : JobAlert) :
  sameKeys a x = true -> sameKeys a y = true ->
  sortsAfter (compareJobs x y) = false.
Proof.
  unfold sameKeys, compareJobs, instant.
  destruct (Date_getTime (publish_date_utc a)) as [|ta]; [discriminate|].
  destruct (Date_getTime (publish_date_utc x)) as [|tx]; [discriminate|].
  destruct (Date_getTime (publish_date_utc y)) as [|ty]; [discriminate|].
  intros Hx Hy. reflect_bool_in Hx. reflect_bool_in Hy.
  destruct Hx as [<- Sx]. destruct Hy as [<- Sy].
  simpl. rewrite Z.eqb_refl. simpl. reflect_bool. lia.
Qed.
End ReconcilerMore.

(** X7.  On records with instants the comparator is a consistent order,
    as the sort requires: a record compares equal to itself, swapping
    the arguments flips the sign, "not after" is transitive, and two
    records compare equal exactly when they have the same instant and
    the same score. *)
Theorem compareJobs_consistent `{Host} (a b c : JobAlert) :
  dated a -> dated b -> dated c ->
  signOf (compareJobs a a) = 0
  /\ signOf (compareJobs a b) = - signOf (compareJobs b a)
  /\ (signOf (compareJobs a b) <= 0 -> signOf (compareJobs b c) <= 0 ->
      signOf (compareJobs a c) <= 0)
  /\ (signOf (compareJobs a b) = 0 <-> sameKeys a b = true).
Proof.
  intros [ta Ea] [tb Eb] [tc Ec].
  unfold compareJobs, sameKeys, instant in *. rewrite Ea, Eb, Ec. simpl.
  rewrite Z.eqb_refl. simpl.
  destruct (ta =? tb) eqn:Eab; destruct (tb =? ta) eqn:Eba;
    destruct (tb =? tc) eqn:Ebc; destruct (ta =? tc) eqn:Eac;
    reflect_bool_in Eab; reflect_bool_in Eba; reflect_bool_in Ebc;
    reflect_bool_in Eac; try lia; simpl;
    rewrite ?andb_true_iff, ?Z.eqb_eq;
    repeat split; intros; try lia; try discriminate.
Qed.

Lemma compareJobs_consistent_witness :
  signOf (compareJobs (H := exampleHost) novemberJob octoberJob)
  = - signOf (compareJobs (H := exampleHost) octoberJob novemberJob).
Proof.
  refine (proj1 (proj2 (compareJobs_consistent (H := exampleHost)
                          novemberJob octoberJob novemberTopJob _ _ _)));
    eexists; vm_compute; reflexivity.
Defined.

(** X8.  On records with instants, those with the same instant and the
    same score keep their order: in the result the incoming ones come
    first, in the order of the batch, and the existing ones follow in
    the order they had. *)
Theorem ties_keep_order `{Host} (a : JobAlert)
        (incoming existing : list JobAlert) :
  Forall dated (incoming ++ existing) ->
  filter (sameKeys a) (mergeAndSortJobs incoming existing)
  = filter (sameKeys a) incoming ++ filter (sameKeys a) existing.
Proof.
  intros _. unfold mergeAndSortJobs. rewrite sort_filter.
  - apply filter_app.
  - intros x y. apply sameKeys_no_swap.
Qed.

Lemma ties_keep_order_witness :
  mergeAndSortJobs (H := exampleHost) [novemberJob; octoberJob] [novemberJob]
  = [novemberJob; novemberJob; octoberJob]
  /\ filter (sameKeys (H := exampleHost) novemberJob)
            (mergeAndSortJobs (H := exampleHost)
               [novemberJob; octoberJob] [novemberJob])
     = [novemberJob] ++ [novemberJob].
Proof.
  split; [reflexivity|].
  apply (ties_keep_order (H := exampleHost) novemberJob
           [novemberJob; octoberJob] [novemberJob]).
  repeat constructor; eexists; vm_compute; reflexivity.
Defined.

(** X9.  On records with instants, merging batch after batch gives the
    collection that merging them at once gives, and merging an empty
    batch into a reconciled collection leaves it as it is. *)
Theorem merge_incremental `{Host} (third second first : list JobAlert) :
  Forall dated (third ++ second ++ first) ->
  mergeAndSortJobs third (mergeAndSortJobs second first)
  = mergeAndSortJobs (third ++ second) first
  /\ mergeAndSortJobs [] (mergeAndSortJobs second first)
     = mergeAndSortJobs second first.
Proof.
  intros Hall. apply Forall_app in Hall as [_ Hd].
  assert (Hfix : sort compareJobs (mergeAndSortJobs second first)
                 = mergeAndSortJobs second first).
  { apply sort_fixed.
    apply (StronglySorted_weaken precedes); [apply precedes_keeps|].
    apply mergeAndSortJobs_sorted. exact Hd. }
  split.
  - unfold mergeAndSortJobs at 1.
    rewrite (sort_app compareJobs third), Hfix.
    unfold mergeAndSortJobs. rewrite <- app_assoc.
    rewrite (sort_app compareJobs third (second ++ first)). reflexivity.
  - exact Hfix.
Qed.

Lemma merge_incremental_witness :
  mergeAndSortJobs (H := exampleHost) [novemberTopJob]
    (mergeAndSortJobs (H := exampleHost) [octoberJob] [novemberJob])
  = mergeAndSortJobs (H := exampleHost) [novemberTopJob; octoberJob] [novemberJob].
Proof.
  refine (proj1 (merge_incremental (H := exampleHost)
                   [novemberTopJob] [octoberJob] [novemberJob] _)).
  repeat constructor; eexists; vm_compute; reflexivity.
Defined.

(* ================================================================== *)
(** * Further properties of the log                                    *)
(* ================================================================== *)

Lemma firstn_app_firstn {A} (n : nat) (front back : list A) :
  firstn n (front ++ firstn n back) = firstn n (front ++ back).
Proof.
  rewrite !firstn_app, firstn_firstn.
  replace (Nat.min (n - List.length front) n) with (n - List.length front)%nat
    by lia.
  reflexivity.
Qed.

Section LogMore.
Context `{Host}.

Lemma addLog_world (message : str) (w : World) :
  run (addLog message) w
  = {| ui := {| jobs := jobs (ui w); isScanning := isScanning (ui w);
                activeTab := activeTab (ui w);
                analyzeText := analyzeText (ui w);
                logs := firstn 50 (stamped (clockReads w) message
                                   :: logs (ui w)) |};
       clockReads := S (clockReads w);
       invocations := invocations w; alerts := alerts w |}.
Proof. reflexivity. Qed.

Lemma run_addLogs_cons (message : str) (rest : list str) (w : World) :
  run (addLogs (message :: rest)) w
  = run (addLogs rest) (run (addLog message) w).
Proof. reflexivity. Qed.
End LogMore.

(** X10.  The log is a window on the history: after any number of
    messages are logged on a log of at most 50 lines, the log is the
    first 50 of the new lines, newest first and each stamped with its
    own clock reading, followed by the previous lines; the clock was
    read once per message and nothing else of the state has changed. *)
Theorem log_is_latest_50 `{Host} (messages : list str) (w : World) :
  (List.length (logs (ui w)) <= 50)%nat ->
  let w' := run (addLogs messages) w in
  logs (ui w')
  = firstn 50 (rev (stampedFrom (clockReads w) messages) ++ logs (ui w))
  /\ clockReads w' = (clockReads w + List.length messages)%nat
  /\ jobs (ui w') = jobs (ui w)
  /\ isScanning (ui w') = isScanning (ui w)
  /\ invocations w' = invocations w.
Proof.
  revert w. induction messages as [|message rest IH]; intros w Hlen.
  - cbv zeta. change (run (addLogs []) w) with w.
    rewrite firstn_all2 by exact Hlen.
    repeat split; try reflexivity. simpl. lia.
  - cbv zeta. rewrite run_addLogs_cons.
    set (w1 := run (addLog message) w).
    assert (E1 : logs (ui w1)
                 = firstn 50 (stamped (clockReads w) message :: logs (ui w)))
      by reflexivity.
    assert (Hlen1 : (List.length (logs (ui w1)) <= 50)%nat)
      by (rewrite E1; apply firstn_le_length).
    destruct (IH w1 Hlen1) as (Hl & Hc & Hj & Hs & Hi).
    repeat split.
    + rewrite Hl, E1, firstn_app_firstn.
      change (clockReads w1) with (S (clockReads w)).
      change (stampedFrom (clockReads w) (message :: rest))
        with (stamped (clockReads w) message
              :: stampedFrom (S (clockReads w)) rest).
      simpl rev. rewrite <- app_assoc. reflexivity.
    + rewrite Hc. change (clockReads w1) with (S (clockReads w)).
      simpl List.length. lia.
    + rewrite Hj. reflexivity.
    + rewrite Hs. reflexivity.
    + rewrite Hi. reflexivity.
Qed.

Lemma log_is_latest_50_witness :
  let w := worldWith [] (lit "") (repeat (lit "[09:29:59] earlier") 49) in
  logs (ui (run (addLogs (H := exampleHost) [lit "one"; lit "two"]) w))
  = lit "[09:30:01] two" :: lit "[09:30:00] one"
    :: repeat (lit "[09:29:59] earlier") 48.
Proof.
  cbv zeta.
  pose proof (log_is_latest_50 (H := exampleHost) [lit "one"; lit "two"]
                (worldWith [] (lit "") (repeat (lit "[09:29:59] earlier") 49)))
    as Hlog.
  cbv zeta in Hlog. destruct Hlog as (Hl & _).
  - vm_compute. lia.
  - rewrite Hl. reflexivity.
Defined.

(* ================================================================== *)
(** * Further properties of the service and the handlers               *)
(* ================================================================== *)

(** X11.  What [scanJobs] returns and throws.  It returns records in two
    cases only: the empty list when the response has no text or the
    empty text, and otherwise what the parser made of the text, as it
    is; it applies no filter of its own.  It throws in three cases only:
    its own error when there is no API key, and otherwise what the call
    or the parser threw, unchanged. *)
Theorem scanJobs_outcomes `{Host}
        (n : nat) (mode : Mode) (inputText : option str) :
  (forall data,
      scanJobs n mode inputText = Normal data
      <-> missing API_KEY = false
          /\ exists text,
               generateContent n mode inputText = Normal text
               /\ (missing text = true /\ data = []
                   \/ exists t, text = Some t /\ t <> []
                                /\ JSON_parse t = Normal data))
  /\ (forall e,
         scanJobs n mode inputText = Throw e
         <-> missing API_KEY = true
             /\ e = ErrorObj (lit "Error") (lit "API Key is missing")
             \/ missing API_KEY = false
                /\ (generateContent n mode inputText = Throw e
                    \/ exists t,
                         generateContent n mode inputText = Normal (Some t)
                         /\ t <> [] /\ JSON_parse t = Throw e)).
Proof.
  unfold scanJobs.
  destruct (missing API_KEY) eqn:Hk.
  - split.
    + intros data. split; [discriminate | intros [E _]; discriminate].
    + intros e. split.
      * intros [= <-]. left. split; reflexivity.
      * intros [[_ ->] | [E _]]; [reflexivity | discriminate].
  - destruct (generateContent n mode inputText) as [[t|]|err] eqn:Hg.
    + destruct t as [|c t]; simpl.
      * split.
        -- intros data. split.
           ++ intros [= <-]. split; [reflexivity|].
              exists (Some []). split; [reflexivity|]. left. split; reflexivity.
           ++ intros [_ (text & [= <-] & [[_ ->] | (t & [= <-] & Hne & _)])];
                [reflexivity | congruence].
        -- intros e. split; [discriminate|].
           intros [[E _] | [_ [E | (t & [= <-] & Hne & _)]]];
             try discriminate. congruence.
      * destruct (JSON_parse (c :: t)) as [parsed|perr] eqn:Hp.
        -- split.
           ++ intros data. split.
              ** intros [= <-]. split; [reflexivity|].
                 exists (Some (c :: t)). split; [reflexivity|]. right.
                 exists (c :: t). repeat split; [discriminate | exact Hp].
              ** intros [_ (text & [= <-] & [[Hm _] | (t' & [= <-] & _ & Hp')])].
                 --- discriminate.
                 --- congruence.
           ++ intros e. split; [discriminate|].
              intros [[E _] | [_ [E | (t' & [= <-] & _ & Hp')]]];
                try discriminate. congruence.
        -- split.
           ++ intros data. split; [discriminate|].
              intros [_ (text & [= <-] & [[Hm _] | (t' & [= <-] & _ & Hp')])].
              ** discriminate.
              ** congruence.
           ++ intros e. split.
              ** intros [= <-]. right. split; [reflexivity|]. right.
                 exists (c :: t). repeat split; [discriminate | exact Hp].
              ** intros [[E _] | [_ [E | (t' & [= <-] & _ & Hp')]]];
                   try discriminate. congruence.
    + split.
      * intros data. split.
        -- intros [= <-]. split; [reflexivity|].
           exists None. split; [reflexivity|]. left. split; reflexivity.
        -- intros [_ (text & [= <-] & [[_ ->] | (t & E & _)])];
             [reflexivity | discriminate].
      * intros e. split; [discriminate|].
        intros [[E _] | [_ [E | (t & E & _)]]]; discriminate.
    + split.
      * intros data. split; [discriminate|].
        intros [_ (text & E & _)]. discriminate.
      * intros e. split.
        -- intros [= <-]. right. split; [reflexivity|]. left. reflexivity.
        -- intros [[E _] | [_ [[= <-] | (t & E & _)]]];
             [discriminate | reflexivity | discriminate].
Qed.

(** X12.  Without an API key the two handlers differ.  The scan handler
    shows an alert and does nothing else: nothing is logged, the busy
    flag is not set and [scanJobs] is not invoked.  The analysis handler
    shows no alert: it invokes [scanJobs], which throws, and the failure
    is logged as "API Key is missing" with the collection unchanged. *)
Theorem missing_key_is_reported `{Host} (w : World) :
  missing API_KEY = true ->
  trim (analyzeText (ui w)) <> [] ->
  run handleSimulateScan w
  = {| ui := ui w; clockReads := clockReads w; invocations := invocations w;
       alerts := alerts w
                 ++ [lit "Please set your API_KEY in the environment variables."] |}
  /\ let w' := run handleAnalyzeText w in
     alerts w' = alerts w
     /\ jobs (ui w') = jobs (ui w)
     /\ isScanning (ui w') = false
     /\ invocations w' = invocations w ++ [(ANALYZE, Some (analyzeText (ui w)))]
     /\ logs (ui w')
        = stamped (S (clockReads w))
                  (lit "ERR: Analysis failed. API Key is missing")
          :: firstn 49 (stamped (clockReads w)
                                (lit "Analyzing raw job description...")
                        :: firstn 49 (logs (ui w))).
Proof.
  intros Hk Ht. split.
  - unfold run, handleSimulateScan. rewrite Hk. reflexivity.
  - destruct w as [[held busy tab text lines] reads calls shown].
    simpl in Ht.
    assert (Ef : falsy (trim text) = false).
    { destruct (trim text); [congruence | reflexivity]. }
    step_handler. rewrite Ef. step_handler.
    unfold scanJobs. rewrite Hk. step_handler.
    repeat split; reflexivity.
Qed.

Lemma missing_key_is_reported_witness :
  let w := worldWith [octoberJob] (lit "Data Engineer, Lund") [] in
  alerts (run (handleSimulateScan (H := keylessHost)) w)
  = [lit "Please set your API_KEY in the environment variables."]
  /\ hd [] (logs (ui (run (handleAnalyzeText (H := keylessHost)) w)))
     = lit "[09:30:01] ERR: Analysis failed. API Key is missing".
Proof.
  cbv zeta.
  pose proof (missing_key_is_reported (H := keylessHost)
                (worldWith [octoberJob] (lit "Data Engineer, Lund") []))
    as Hrep.
  destruct Hrep as (Hscan & Hanalysis).
  - reflexivity.
  - vm_compute. discriminate.
  - cbv zeta in Hanalysis. destruct Hanalysis as (_ & _ & _ & _ & Hlogs).
    split; [rewrite Hscan; reflexivity | rewrite Hlogs; reflexivity].
Defined.

(** X13.  When the invocation returns a batch that is not empty, of
    records with instants and with scores that print in full, into a
    collection of records with instants, the handler merges the whole
    batch into the collection through the reconciler, logs one line (the
    number of records for a scan, the score of the first record for an
    analysis), records one invocation and clears the busy flag.  A scan
    leaves the text and the tab as they are; an analysis empties the
    text and shows the feed. *)
Theorem batch_is_merged_whole `{Host}
        (t : Trigger) (w : World) (results : list JobAlert) :
  reachesCall t w ->
  outcomeOf t w = Normal results ->
  results <> [] ->
  Forall dated (results ++ jobs (ui w)) ->
  Forall (fun j => Z.abs (match_score j) < 2 ^ 53) results ->
  let before := run (announce t) w in
  let w' := run (handler t) w in
  jobs (ui w') = mergeAndSortJobs results (jobs (ui w))
  /\ logs (ui w')
     = successLine t (clockReads before) results
       :: firstn 49 (logs (ui before))
  /\ invocations w' = invocations w ++ [request t w]
  /\ isScanning (ui w') = false
  /\ match t with
     | Scan => analyzeText (ui w') = analyzeText (ui w)
               /\ activeTab (ui w') = activeTab (ui w)
     | Analysis => analyzeText (ui w') = [] /\ activeTab (ui w') = feed
     end.
Proof.
  destruct w as [[held busy tab text lines] reads calls shown].
  destruct results as [|first more]; [congruence|].
  destruct t; intros Hreach Hout _ _ _ before w'; subst before w';
    simpl in Hreach; step_handler_in Hout.
  - unfold run, handler, handleSimulateScan. rewrite Hreach.
    step_handler. rewrite Hout. step_handler.
    repeat split; reflexivity.
  - assert (Ef : falsy (trim text) = false).
    { destruct (trim text); [congruence | reflexivity]. }
    step_handler. rewrite Ef. step_handler. rewrite Hout. step_handler.
    repeat split; reflexivity.
Qed.

Lemma batch_is_merged_whole_witness :
  let w := worldWith [octoberJob] (lit "") [] in
  let w' := run (handler (H := batchHost) Scan) w in
  jobs (ui w') = [novemberTopJob; novemberJob; octoberJob]
  /\ hd [] (logs (ui w'))
     = lit "[09:30:02] Scan complete. Discovered 2 valid matches from current month.".
Proof.
  cbv zeta.
  pose proof (batch_is_merged_whole (H := batchHost) Scan
                (worldWith [octoberJob] (lit "") [])
                [novemberJob; novemberTopJob]) as Hb.
  cbv zeta in Hb. destruct Hb as (Hjobs & Hlogs & _).
  - reflexivity.
  - reflexivity.
  - discriminate.
  - repeat constructor; eexists; vm_compute; reflexivity.
  - repeat constructor; reflexivity.
  - split; [rewrite Hjobs | rewrite Hlogs]; reflexivity.
Defined.

(** X14.  When the invocation returns no records, the handler leaves the
    collection, the text and the tab as they are, logs one line that
    says so, records one invocation and clears the busy flag. *)
Theorem empty_result_changes_nothing `{Host} (t : Trigger) (w : World) :
  reachesCall t w ->
  outcomeOf t w = Normal [] ->
  let before := run (announce t) w in
  let w' := run (handler t) w in
  jobs (ui w') = jobs (ui w)
  /\ analyzeText (ui w') = analyzeText (ui w)
  /\ activeTab (ui w') = activeTab (ui w)
  /\ logs (ui w') = emptyLine t (clockReads before) :: firstn 49 (logs (ui before))
  /\ invocations w' = invocations w ++ [request t w]
  /\ isScanning (ui w') = false.
Proof.
  destruct w as [[held busy tab text lines] reads calls shown].
  destruct t; intros Hreach Hout before w'; subst before w';
    simpl in Hreach; step_handler_in Hout.
  - unfold run, handler, handleSimulateScan. rewrite Hreach.
    step_handler. rewrite Hout. step_handler.
    repeat split; reflexivity.
  - assert (Ef : falsy (trim text) = false).
    { destruct (trim text); [congruence | reflexivity]. }
    step_handler. rewrite Ef. step_handler. rewrite Hout. step_handler.
    repeat split; reflexivity.
Qed.

Lemma empty_result_changes_nothing_witness :
  let w := worldWith [octoberJob] (lit "Chef, Oslo") [] in
  let w' := run (handler (H := silentHost) Analysis) w in
  jobs (ui w') = [octoberJob] /\ analyzeText (ui w') = lit "Chef, Oslo".
Proof.
  cbv zeta.
  pose proof (empty_result_changes_nothing (H := silentHost) Analysis
                (worldWith [octoberJob] (lit "Chef, Oslo") [])) as He.
  cbv zeta in He. destruct He as (Hjobs & Htext & _).
  - vm_compute. discriminate.
  - reflexivity.
  - split; [exact Hjobs | exact Htext].
Defined.

(* ================================================================== *)
(** * The component as a machine of events                             *)
(* ================================================================== *)

Import Session.


Ltac step_session :=
  cbv beta iota zeta delta
    [run handler handleSimulateScan handleAnalyzeText seq ret modify
     setIsScanning setJobs setLogs setAnalyzeText setActiveTab addLog
     currentTime awaitScanJobs getAnalyzeText App.alert announce request
     outcomeOf failureLine fst snd
     start resume startScan startAnalysis resumeScan resumeAnalysis
     launch world pending
     ui clockReads invocations alerts
     jobs logs isScanning activeTab analyzeText].

Lemma capped_length {A} (x : A) (l : list A) :
  (List.length (x :: firstn 49 l) <= 50)%nat.
Proof.
  change (S (List.length (firstn 49 l)) <= 50)%nat.
  pose proof (firstn_le_length 49 l). lia.
Qed.

Section MachineFacts.
Context `{Host}.

Lemma runEvents_snoc (events : list Event) (e : Event) (s : session) :
  runEvents (events ++ [e]) s = step e (runEvents events s).
Proof. unfold runEvents. rewrite fold_left_app. reflexivity. Qed.

(** An invariant of the steps holds of every session reached from a
    session that has it. *)
Lemma runEvents_invariant (P : session -> Prop) :
  (forall e s, P s -> P (step e s)) ->
  forall events s, P s -> P (runEvents events s).
Proof.
  intros Hstep events. induction events as [|e events IH] using rev_ind;
    intros s Hs.
  - exact Hs.
  - rewrite runEvents_snoc. apply Hstep. apply IH. exact Hs.
Qed.

(** What the first half of a handler does. *)
Lemma start_effect (t : Trigger) (w : World) :
  jobs (ui (snd (start t w))) = jobs (ui w)
  /\ ((List.length (logs (ui w)) <= 50)%nat ->
      (List.length (logs (ui (snd (start t w)))) <= 50)%nat)
  /\ match fst (start t w) with
     | Some outcome =>
         isScanning (ui (snd (start t w))) = true
         /\ invocations (snd (start t w)) = invocations w ++ [request t w]
         /\ outcome = outcomeOf t w
     | None =>
         isScanning (ui (snd (start t w))) = isScanning (ui w)
         /\ invocations (snd (start t w)) = invocations w
     end.
Proof.
  destruct w as [[held busy tab text lines] reads calls shown].
  destruct t.
  - unfold start, startScan. destruct (missing API_KEY).
    + step_session. repeat split; auto.
    + step_session. repeat split; auto. intros _. apply capped_length.
  - unfold start, startAnalysis, seq, getAnalyzeText.
    cbv beta iota zeta delta [ui analyzeText].
    destruct (falsy (trim text)).
    + step_session. repeat split; auto.
    + step_session. repeat split; auto. intros _. apply capped_length.
Qed.

(** What the second half of a handler does. *)
Lemma resume_effect (t : Trigger) (outcome : Outcome) (w : World) :
  isScanning (ui (run (resume t outcome) w)) = false
  /\ invocations (run (resume t outcome) w) = invocations w
  /\ (List.length (logs (ui (run (resume t outcome) w))) <= 50)%nat
  /\ (jobs (ui (run (resume t outcome) w)) = jobs (ui w)
      \/ exists results,
           outcome = Normal results
           /\ jobs (ui (run (resume t outcome) w))
              = mergeAndSortJobs results (jobs (ui w))).
Proof.
  destruct w as [[held busy tab text lines] reads calls shown].
  destruct t; destruct outcome as [results|error].
  - unfold resume, resumeScan.
    destruct (0 <? List.length results)%nat; step_session;
      repeat split; try apply capped_length; eauto.
  - step_session. repeat split; try apply capped_length; eauto.
  - destruct results as [|first more]; step_session;
      repeat split; try apply capped_length; eauto.
  - step_session. repeat split; try apply capped_length; eauto.
Qed.

Lemma step_click (t : Trigger) (s : session) :
  step (clickOf t) s
  = if enabled t (ui (world s)) then launch t s else s.
Proof. destruct t; reflexivity. Qed.

Lemma enabled_idle (t : Trigger) (state : State) :
  enabled t state = true -> isScanning state = false.
Proof.
  destruct t; unfold enabled, Render.scanDisabled, Render.processDisabled;
    destruct (isScanning state); destruct (onFeed state);
    simpl; congruence.
Qed.

Lemma launch_fields (t : Trigger) (s : session) :
  world (launch t s) = snd (start t (world s))
  /\ pending (launch t s)
     = pending s ++ match fst (start t (world s)) with
                    | Some outcome => [(t, outcome)]
                    | None => []
                    end.
Proof. unfold launch. destruct (start t (world s)). split; reflexivity. Qed.
End MachineFacts.

(** X16.  Whatever the events and their order, at most one call is in
    flight, and the busy flag is set exactly while one is: the buttons
    that start a call are disabled until the call has settled. *)
Theorem one_call_in_flight `{Host} (events : list Event) :
  let s := runEvents events initial in
  pending s = [] /\ isScanning (ui (world s)) = false
  \/ exists call, pending s = [call] /\ isScanning (ui (world s)) = true.
Proof.
  cbv zeta.
  apply (runEvents_invariant
           (fun s => pending s = [] /\ isScanning (ui (world s)) = false
                     \/ exists call, pending s = [call]
                                     /\ isScanning (ui (world s)) = true)).
  - intros e s Inv.
    assert (Hlaunch : forall t,
               isScanning (ui (world s)) = false ->
               pending (launch t s) = []
               /\ isScanning (ui (world (launch t s))) = false
               \/ exists call, pending (launch t s) = [call]
                    /\ isScanning (ui (world (launch t s))) = true).
    { intros t Hidle.
      destruct Inv as [[Hp _] | (call & _ & Hbusy)]; [|congruence].
      destruct (launch_fields t s) as [Ew Ep]. rewrite Ew, Ep, Hp.
      destruct (start_effect t (world s)) as (_ & _ & Hmade).
      destruct (fst (start t (world s))) as [outcome|].
      - right. exists (t, outcome). split; [reflexivity | tauto].
      - left. split; [reflexivity|]. destruct Hmade as [-> _]. exact Hidle. }
    destruct e.
    + exact Inv.
    + exact Inv.
    + change ClickScan with (clickOf Scan). rewrite step_click.
      destruct (enabled Scan (ui (world s))) eqn:En; [|exact Inv].
      apply Hlaunch. exact (enabled_idle _ _ En).
    + unfold step. destruct (onFeed (ui (world s))); exact Inv.
    + change ClickProcess with (clickOf Analysis). rewrite step_click.
      destruct (enabled Analysis (ui (world s))) eqn:En; [|exact Inv].
      apply Hlaunch. exact (enabled_idle _ _ En).
    + simpl. destruct Inv as [[Hp Hidle] | (call & Hp & Hbusy)].
      * rewrite Hp. destruct i; simpl; left; split; assumption.
      * rewrite Hp. destruct i as [|i]; simpl.
        -- destruct call as [t outcome]. left. split; [reflexivity|].
           apply resume_effect.
        -- destruct i; simpl; right; exists call; split; assumption.
  - left. split; reflexivity.
Qed.

(** X17.  Whatever the events, the log never holds more than 50
    lines. *)
Theorem log_never_exceeds_50 `{Host} (events : list Event) :
  (List.length (logs (ui (world (runEvents events initial)))) <= 50)%nat.
Proof.
  apply (runEvents_invariant
           (fun s => (List.length (logs (ui (world s))) <= 50)%nat)).
  - intros e s Inv.
    assert (Hlaunch : forall t,
               (List.length (logs (ui (world (launch t s)))) <= 50)%nat).
    { intros t. destruct (launch_fields t s) as [-> _].
      apply start_effect. exact Inv. }
    destruct e.
    + exact Inv.
    + exact Inv.
    + change ClickScan with (clickOf Scan). rewrite step_click.
      destruct (enabled Scan _); [apply Hlaunch | exact Inv].
    + unfold step. destruct (onFeed _); exact Inv.
    + change ClickProcess with (clickOf Analysis). rewrite step_click.
      destruct (enabled Analysis _); [apply Hlaunch | exact Inv].
    + unfold step.
      destruct (nth_error (pending s) i) as [[t outcome]|]; [|exact Inv].
      apply resume_effect.
  - simpl. lia.
Qed.

(** X18.  No event removes a record: after any events, from any session,
    the collection holds the records it held, as often as it held them,
    and the records that were merged in. *)
Theorem collection_only_grows `{Host} (events : list Event) (s : session) :
  exists added,
    Permutation (jobs (ui (world (runEvents events s))))
                (added ++ jobs (ui (world s))).
Proof.
  apply (runEvents_invariant
           (fun s' => exists added,
                Permutation (jobs (ui (world s'))) (added ++ jobs (ui (world s))))).
  - intros e s' [added Hperm].
    assert (Hlaunch : forall t,
               exists added',
                 Permutation (jobs (ui (world (launch t s'))))
                             (added' ++ jobs (ui (world s)))).
    { intros t. destruct (launch_fields t s') as [-> _].
      destruct (start_effect t (world s')) as (-> & _). eauto. }
    destruct e.
    + exists added. exact Hperm.
    + exists added. exact Hperm.
    + change ClickScan with (clickOf Scan). rewrite step_click.
      destruct (enabled Scan _); eauto.
    + unfold step. destruct (onFeed _); exists added; exact Hperm.
    + change ClickProcess with (clickOf Analysis). rewrite step_click.
      destruct (enabled Analysis _); eauto.
    + unfold step.
      destruct (nth_error (pending s') i) as [[t outcome]|]; eauto.
      change (world {| world := run (resume t outcome) (world s');
                       pending := firstn i (pending s')
                                  ++ skipn (S i) (pending s') |})
        with (run (resume t outcome) (world s')).
      destruct (resume_effect t outcome (world s'))
        as (_ & _ & _ & [-> | (results & _ & ->)]); eauto.
      exists (results ++ added). unfold mergeAndSortJobs.
      rewrite sort_perm, Hperm, app_assoc. reflexivity.
  - exists []. reflexivity.
Qed.

(** X19.  Every invocation of [scanJobs] is made by a click on the scan
    or the process button, and a click makes at most one: after any
    events there are no more invocations than such clicks. *)
Theorem one_invocation_per_click `{Host} (events : list Event) :
  (List.length (invocations (world (runEvents events initial)))
   <= clicks events)%nat.
Proof.
  induction events as [|e events IH] using rev_ind.
  - simpl. lia.
  - rewrite runEvents_snoc. unfold clicks in *.
    rewrite filter_app, length_app.
    set (s := runEvents events initial) in *.
    assert (Hlaunch : forall t,
               (List.length (invocations (world (launch t s)))
                <= S (List.length (invocations (world s))))%nat).
    { intros t. destruct (launch_fields t s) as [-> _].
      destruct (start_effect t (world s)) as (_ & _ & Hmade).
      destruct (fst (start t (world s))).
      - destruct Hmade as (_ & -> & _). rewrite length_app. simpl. lia.
      - destruct Hmade as (_ & ->). lia. }
    destruct e.
    + simpl. lia.
    + simpl. lia.
    + change ClickScan with (clickOf Scan). rewrite step_click.
      destruct (enabled Scan _); [specialize (Hlaunch Scan) |]; simpl; lia.
    + unfold step. destruct (onFeed _); simpl; lia.
    + change ClickProcess with (clickOf Analysis). rewrite step_click.
      destruct (enabled Analysis _); [specialize (Hlaunch Analysis) |];
        simpl; lia.
    + unfold step.
      destruct (nth_error (pending s) i) as [[t outcome]|]; [|simpl; lia].
      change (world {| world := run (resume t outcome) (world s);
                       pending := firstn i (pending s)
                                  ++ skipn (S i) (pending s) |})
        with (run (resume t outcome) (world s)).
      destruct (resume_effect t outcome (world s)) as (_ & -> & _).
      simpl. lia.
Qed.

Section OrderedMachine.
Context `{Host}.
Hypothesis parser_dated : parsesDated.

Lemma scanJobs_dated (n : nat) (mode : Mode) (inputText : option str)
      (data : list JobAlert) :
  scanJobs n mode inputText = Normal data -> Forall dated data.
Proof.
  unfold scanJobs. destruct (missing API_KEY); [discriminate|].
  destruct (generateContent n mode inputText) as [[t|]|]; try discriminate.
  - destruct (falsy t).
    + intros [= <-]. constructor.
    + destruct (JSON_parse t) as [parsed|] eqn:Hp; [|discriminate].
      intros [= <-]. exact (parser_dated t parsed Hp).
  - intros [= <-]. constructor.
Qed.

Lemma ordered_launch (t : Trigger) (s : session) :
  ordered s -> ordered (launch t s).
Proof.
  intros (Hd & Hs & Hp).
  destruct (launch_fields t s) as [Ew Ep].
  destruct (start_effect t (world s)) as (Ej & _ & Hmade).
  unfold ordered. rewrite Ew, Ep, Ej. repeat split; try assumption.
  intros t' results Hin. apply in_app_or in Hin as [Hin | Hin].
  - exact (Hp t' results Hin).
  - destruct (fst (start t (world s))) as [outcome|]; [|contradiction].
    destruct Hin as [[= <- ->] | []]. destruct Hmade as (_ & _ & Eo).
    unfold outcomeOf in Eo. symmetry in Eo. exact (scanJobs_dated _ _ _ _ Eo).
Qed.

Lemma ordered_step (e : Event) (s : session) : ordered s -> ordered (step e s).
Proof.
  intros Inv. destruct e.
  - exact Inv.
  - exact Inv.
  - change ClickScan with (clickOf Scan). rewrite step_click.
    destruct (enabled Scan _); [apply ordered_launch|]; exact Inv.
  - unfold step. destruct (onFeed _); exact Inv.
  - change ClickProcess with (clickOf Analysis). rewrite step_click.
    destruct (enabled Analysis _); [apply ordered_launch|]; exact Inv.
  - unfold step.
    destruct (nth_error (pending s) i) as [[t outcome]|] eqn:Hnth; [|exact Inv].
    destruct Inv as (Hd & Hs & Hp). unfold ordered.
    change (world {| world := run (resume t outcome) (world s);
                     pending := firstn i (pending s)
                                ++ skipn (S i) (pending s) |})
      with (run (resume t outcome) (world s)).
    change (pending {| world := run (resume t outcome) (world s);
                       pending := firstn i (pending s)
                                  ++ skipn (S i) (pending s) |})
      with (firstn i (pending s) ++ skipn (S i) (pending s)).
    assert (Hrest : forall t' results,
               In (t', Normal results)
                  (firstn i (pending s) ++ skipn (S i) (pending s)) ->
               Forall dated results).
    { intros t' results Hin. apply (Hp t').
      apply in_app_or in Hin as [Hin | Hin].
      - rewrite <- (firstn_skipn i (pending s)). apply in_or_app. left. exact Hin.
      - rewrite <- (firstn_skipn (S i) (pending s)). apply in_or_app.
        right. exact Hin. }
    destruct (resume_effect t outcome (world s))
      as (_ & _ & _ & [-> | (results & -> & ->)]).
    + repeat split; assumption.
    + assert (Hall : Forall dated (results ++ jobs (ui (world s)))).
      { apply Forall_app. split; [|exact Hd].
        apply (Hp t). eapply nth_error_In. exact Hnth. }
      repeat split; [| apply mergeAndSortJobs_sorted; exact Hall | exact Hrest].
      unfold mergeAndSortJobs. rewrite sort_perm. exact Hall.
Qed.
End OrderedMachine.

(** X20.  When the parser gives only records whose publish date has an
    instant, the collection is in display order after any events: of
    two records the earlier one is strictly newer, or as new and scored
    at least as high; and every record in it has an instant. *)
Theorem collection_always_ordered `{Host} (events : list Event) :
  parsesDated ->
  let held := jobs (ui (world (runEvents events initial))) in
  Forall dated held
  /\ forall i k a b, (i < k)%nat ->
       nth_error held i = Some a -> nth_error held k = Some b ->
       precedes a b.
Proof.
  intros Hparse held.
  assert (Inv : ordered (runEvents events initial)).
  { apply (runEvents_invariant ordered).
    - intros e s. apply ordered_step. exact Hparse.
    - repeat split; try constructor. intros t results []. }
  destruct Inv as (Hd & Hs & _). split; [exact Hd|].
  apply StronglySorted_nth. exact Hs.
Qed.

Lemma collection_always_ordered_witness :
  jobs (ui (world (runEvents (H := busyHost)
                     [ClickScan; ClickAnalyzeTab; Settle 0] initial)))
  = [novemberTopJob; novemberJob]
  /\ precedes (H := busyHost) novemberTopJob novemberJob.
Proof.
  assert (Hparse : parsesDated (H := busyHost)).
  { intros text data. unfold JSON_parse, busyHost, Stub.host, Stub.tableParse.
    destruct (list_eq_dec N.eq_dec _ text); [|discriminate].
    intros [= <-]. repeat constructor; eexists; vm_compute; reflexivity. }
  pose proof (collection_always_ordered (H := busyHost)
                [ClickScan; ClickAnalyzeTab; Settle 0] Hparse) as Hord.
  cbv zeta in Hord. destruct Hord as [_ Hord].
  split; [reflexivity|].
  apply (Hord 0%nat 1%nat); [lia | reflexivity | reflexivity].
Defined.

(** The machine on an example: two clicks on the scan button while the
    first call is in flight make one invocation; an edit made while an
    analysis is in flight is kept when the result is empty. *)
Example machine_example :
  let s := runEvents (H := busyHost)
             [ClickScan; ClickScan; Settle 0; ClickAnalyzeTab;
              ChangeText (lit "BI role"); ClickProcess;
              ChangeText (lit "BI role, Lund"); Settle 0] initial in
  List.length (invocations (world s)) = 2%nat
  /\ jobs (ui (world s)) = [novemberTopJob; novemberJob]
  /\ analyzeText (ui (world s)) = lit "BI role, Lund"
  /\ pending s = [] /\ isScanning (ui (world s)) = false
  /\ List.length (logs (ui (world s))) = 5%nat.
Proof. repeat split; reflexivity. Qed.
